(** * CloudWatch Logs log-group poller: a shallow embedding

    The Go functions of the snapshot poller for CloudWatch Logs log groups
    ([getLogGroup], [describeLogGroups], [listTagsLogGroup],
    [buildCloudWatchLogsLogGroupSnapshot], [PollCloudWatchLogsLogGroup],
    [PollCloudWatchLogsLogGroups]) are written as Rocq functions.

    - Go pointers are [option]s; dereferencing a nil pointer is the outcome
      [Panic].
    - Go slices are [Slice.t]: [None] is the nil slice.
    - The AWS service is a record of request functions; the SDK paginator
      [DescribeLogGroupsPages] is the SDK's request loop over it, bounded by
      fuel because a provider may hand out tokens forever.
    - Go [int64] is [Z] with the wrap-around written out. *)

From Stdlib Require Import ZArith List String Ascii Bool Lia Permutation.
Import ListNotations.

Set Implicit Arguments.

(** ** Outcomes of a Go call *)

Inductive exec (A : Type) : Type :=
| Return (a : A)
| Panic
| OutOfFuel.

Arguments Return {A} a.
Arguments Panic {A}.
Arguments OutOfFuel {A}.

Definition bind {A B : Type} (m : exec A) (k : A -> exec B) : exec B :=
  match m with
  | Return a => k a
  | Panic => Panic
  | OutOfFuel => OutOfFuel
  end.

Notation "x <- m ;; k" := (bind m (fun x => k))
  (at level 61, m at next level, right associativity).

(** [*p] on a pointer [p]. *)
Definition deref {A : Type} (p : option A) : exec A :=
  match p with
  | Some a => Return a
  | None => Panic
  end.

(** ** Go errors: a provider error, or [errors.Wrap] around a cause *)

Inductive error : Type :=
| ProviderError (msg : string)
| Wrap (cause : error) (message : string).

(** ** Go slices *)

Module Slice.

Definition t (A : Type) : Type := option (list A).

Definition elems {A : Type} (s : t A) : list A :=
  match s with
  | Some l => l
  | None => []
  end.

Definition len {A : Type} (s : t A) : Z := Z.of_nat (List.length (elems s)).

(** [append(s, xs...)]: appending nothing to the nil slice leaves it nil. *)
Definition append {A : Type} (s : t A) (xs : list A) : t A :=
  match s, xs with
  | None, [] => None
  | _, _ => Some (elems s ++ xs)
  end.

(** [make([]T, 0, n)]: empty, not nil. *)
Definition make (A : Type) : t A := Some [].

End Slice.

(** ** Go int64 *)

Definition int64_min : Z := - 2 ^ 63.
Definition int64_max : Z := 2 ^ 63 - 1.

Definition in_int64 (z : Z) : Prop := (int64_min <= z <= int64_max)%Z.

Definition wrap64 (z : Z) : Z := ((z + 2 ^ 63) mod 2 ^ 64 - 2 ^ 63)%Z.

(** [a / b] on int64 with [b <> 0]: the quotient truncated toward zero. *)
Definition int64_div (a b : Z) : Z := wrap64 (Z.quot a b).

(** ** Go strings (package strings) *)

(** [strings.HasPrefix(s, prefix)]. *)
Definition HasPrefix (s prefix : string) : bool := String.prefix prefix s.

(** [strings.TrimPrefix(s, prefix)]: [s[len(prefix):]] when [s] starts with
    [prefix], otherwise [s]. *)
Definition TrimPrefix (s prefix : string) : string :=
  if HasPrefix s prefix
  then substring (String.length prefix) (String.length s - String.length prefix) s
  else s.

(** [strings.Split(s, sep)] for a one-byte separator. *)
Fixpoint Split (s : string) (sep : ascii) : list string :=
  match s with
  | EmptyString => [EmptyString]
  | String c s' =>
      if Ascii.eqb c sep
      then EmptyString :: Split s' sep
      else match Split s' sep with
           | [] => [String c EmptyString]
           | w :: ws => String c w :: ws
           end
  end.

(** [xs[0]]: indexing an empty slice panics. *)
Definition index0 {A : Type} (xs : list A) : exec A :=
  match xs with
  | x :: _ => Return x
  | [] => Panic
  end.

(** ** The CloudWatch Logs API (cloudwatchlogsiface.CloudWatchLogsAPI)

    Every field of an SDK struct is a pointer.  The elements of a
    [[]*LogGroup] are the structs themselves: the SDK allocates each element
    it decodes. *)

Record LogGroup : Type := {
  Arn : option string;
  CreationTime : option Z;
  KmsKeyId : option string;
  LogGroupName : option string;
  MetricFilterCount : option Z;
  RetentionInDays : option Z;
  StoredBytes : option Z
}.

Record DescribeLogGroupsInput : Type := {
  LogGroupNamePrefix : option string;
  InputNextToken : option string
}.

Record DescribeLogGroupsOutput : Type := {
  LogGroups : list LogGroup;
  NextToken : option string
}.

Definition Tags : Type := list (string * option string).

Inductive response (A : Type) : Type :=
| Ok (a : A)
| Err (e : error).

Arguments Ok {A} a.
Arguments Err {A} e.

Record CloudWatchLogsAPI : Type := {
  DescribeLogGroups : DescribeLogGroupsInput -> response DescribeLogGroupsOutput;
  ListTagsLogGroup : option string -> response Tags
}.

(** The SDK paginator's test for a further page: the output token is
    present and not the empty string. *)
Definition hasNextPage (page : DescribeLogGroupsOutput) : bool :=
  match NextToken page with
  | Some EmptyString => false
  | Some _ => true
  | None => false
  end.

(** [DescribeLogGroupsPages(input, fn)], the SDK's paginator: request a
    page with the input's token, call [fn page lastPage] where [lastPage]
    says that the page announces no further one; stop when [fn] returns
    false, when the page was the last one, or when a request fails, and
    otherwise request again with the page's token.  [fn] is a Go closure:
    its captured variables are the state [st]. *)
Fixpoint DescribeLogGroupsPages {St : Type} (fuel : nat) (svc : CloudWatchLogsAPI)
    (input : DescribeLogGroupsInput)
    (fn : St -> DescribeLogGroupsOutput -> bool -> St * bool)
    (st : St) : exec (St * option error) :=
  match fuel with
  | O => OutOfFuel
  | S fuel' =>
      match DescribeLogGroups svc input with
      | Err e => Return (st, Some e)
      | Ok page =>
          let lastPage := negb (hasNextPage page) in
          let (st', continue) := fn st page lastPage in
          if continue && negb lastPage
          then DescribeLogGroupsPages fuel' svc
                 {| LogGroupNamePrefix := LogGroupNamePrefix input;
                    InputNextToken := NextToken page |} fn st'
          else Return (st', None)
      end
  end.

(** ** Structs of the packages the poller imports

    Only the fields the poller reads or writes are kept; a pointer field is
    an [option]. *)

Module arn.

Record ARN : Type := {
  Partition : string;
  Service : string;
  Region : string;
  AccountID : string;
  Resource : string
}.

End arn.

Module pollermodels.

Record ScanEntry : Type := {
  ResourceID : option string
}.

End pollermodels.

Module awsmodels.

Module ResourcePollerInput.

Record t : Type := {
  AuthSourceParsedARN : arn.ARN;
  IntegrationID : option string;
  Region : option string;
  NextPageToken : option string
}.

End ResourcePollerInput.

Record GenericResource (DateTime : Type) : Type := {
  ResourceID : option string;
  ResourceType : option string;
  TimeCreated : DateTime
}.

(** A nil [map[string]*string] is the empty association list. *)
Record GenericAWSResource : Type := {
  AccountID : option string;
  ARN : option string;
  Name : option string;
  Region : option string;
  Tags : Tags
}.

Record CloudWatchLogsLogGroup (DateTime : Type) : Type := {
  Generic : GenericResource DateTime;
  GenericAWS : GenericAWSResource;
  KmsKeyId : option string;
  MetricFilterCount : option Z;
  RetentionInDays : option Z;
  StoredBytes : option Z
}.

End awsmodels.

Module apimodels.

Record AddResourceEntry (Attrs : Type) : Type := {
  Attributes : Attrs;
  ID : string;
  IntegrationID : string;
  IntegrationType : string;
  Type_ : string
}.

End apimodels.

(** ** Vocabulary for provider behaviour *)

(** The request [describeLogGroups] sends for a page. *)
Definition pageRequest (token : option string) : DescribeLogGroupsInput :=
  {| LogGroupNamePrefix := None; InputNextToken := token |}.

(** [walk svc token pages token']: requesting from [token] and following the
    returned tokens, the provider answers [pages] one after the other, each
    announcing a further page; [token'] is the token of the request that
    comes next. *)
Inductive walk (svc : CloudWatchLogsAPI)
  : option string -> list DescribeLogGroupsOutput -> option string -> Prop :=
| walk_nil : forall token, walk svc token [] token
| walk_cons : forall token page pages token',
    DescribeLogGroups svc (pageRequest token) = Ok page ->
    hasNextPage page = true ->
    walk svc (NextToken page) pages token' ->
    walk svc token (page :: pages) token'.

(** [serves svc token pages]: from [token] on the provider holds exactly
    the pages [pages], the last of which announces no further page. *)
Definition serves (svc : CloudWatchLogsAPI) (token : option string)
    (pages : list DescribeLogGroupsOutput) : Prop :=
  exists front last token',
    pages = front ++ [last] /\
    walk svc token front token' /\
    DescribeLogGroups svc (pageRequest token') = Ok last /\
    hasNextPage last = false.

(** The items of a run of pages, in provider order. *)
Definition items (pages : list DescribeLogGroupsOutput) : list LogGroup :=
  List.concat (map LogGroups pages).

Definition pageSize (page : DescribeLogGroupsOutput) : Z :=
  Z.of_nat (List.length (LogGroups page)).

(** [continues ceiling count pages]: starting with [count] items, the count
    after each page of [pages] is still below [ceiling]. *)
Fixpoint continues (ceiling count : Z) (pages : list DescribeLogGroupsOutput) : bool :=
  match pages with
  | [] => true
  | page :: rest =>
      (count + pageSize page <? ceiling)%Z
      && continues ceiling (count + pageSize page) rest
  end.

(** ** A provider holding a fixed sequence of pages *)

Fixpoint tokenOf (n : nat) : string :=
  match n with
  | O => "t"
  | S n' => String "i" (tokenOf n')
  end.

Definition pageIndex (token : option string) : nat :=
  match token with
  | None => 0
  | Some tok => String.length tok - 1
  end.

(** Page [i] of [pages] is answered with the token of page [i + 1] when
    there is one; the tags of every group are [tags]. *)
Definition pagedProvider (pages : list (list LogGroup)) (tags : Tags)
    : CloudWatchLogsAPI :=
  {| DescribeLogGroups := fun input =>
       let i := pageIndex (InputNextToken input) in
       match nth_error pages i with
       | Some groups =>
           Ok {| LogGroups := groups;
                 NextToken := if S i <? List.length pages
                              then Some (tokenOf (S i)) else None |}
       | None => Err (ProviderError "InvalidParameterException")
       end;
     ListTagsLogGroup := fun _ => Ok tags |}.

(** What [pagedProvider pages] answers: the token that asks for page [i],
    and the output for page [i]. *)
Definition pageToken (i : nat) : option string :=
  match i with
  | O => None
  | S _ => Some (tokenOf i)
  end.

Definition pageOutput (pages : list (list LogGroup)) (i : nat)
    : DescribeLogGroupsOutput :=
  {| LogGroups := nth i pages [];
     NextToken := if S i <? List.length pages then Some (tokenOf (S i)) else None |}.

Definition pageOutputs (pages : list (list LogGroup)) : list DescribeLogGroupsOutput :=
  map (pageOutput pages) (seq 0 (List.length pages)).

(** A provider that filters its groups by name prefix, in one page. *)
Definition prefixProvider (groups : list LogGroup) : CloudWatchLogsAPI :=
  {| DescribeLogGroups := fun input =>
       Ok {| LogGroups :=
               filter (fun g =>
                         match LogGroupNamePrefix input, LogGroupName g with
                         | Some prefix, Some name => HasPrefix name prefix
                         | Some _, None => false
                         | None, _ => true
                         end) groups;
             NextToken := None |};
     ListTagsLogGroup := fun _ => Ok [] |}.

(** ** The poller *)

Section Poller.

(** The batch ceiling: a constant of the poller package, declared in another
    file of the package; its value is left open. *)
Variable defaultBatchSize : Z.

(** The callback of [describeLogGroups]; the closure captures the named
    results [logGroups] and [marker]. *)
Definition describeLogGroupsPage (st : Slice.t LogGroup * option string)
    (page : DescribeLogGroupsOutput) (lastPage : bool)
    : (Slice.t LogGroup * option string) * bool :=
  let (logGroups, marker) := st in
  let logGroups := Slice.append logGroups (LogGroups page) in
  if (Slice.len logGroups >=? defaultBatchSize)%Z
  then ((logGroups, if negb lastPage then NextToken page else marker), false)
  else ((logGroups, marker), true).

(** [describeLogGroups] returns all Log Groups in the account. *)
Definition describeLogGroups (fuel : nat) (cloudwatchLogsSvc : CloudWatchLogsAPI)
    (nextMarker : option string)
    : exec (Slice.t LogGroup * option string * option error) :=
  r <- DescribeLogGroupsPages fuel cloudwatchLogsSvc
         {| LogGroupNamePrefix := None; InputNextToken := nextMarker |}
         describeLogGroupsPage (None, None) ;;
  match r with
  | (_, Some err) =>
      Return (None, None, Some (Wrap err "CloudWatchLogs.DescribeLogGroups"))
  | ((logGroups, marker), None) => Return (logGroups, marker, None)
  end.

(** The request loop as [describeLogGroups] starts it, from any state of the
    captured variables. *)
Definition pagesLoop (fuel : nat) (svc : CloudWatchLogsAPI) (token : option string)
    (st : Slice.t LogGroup * option string)
    : exec ((Slice.t LogGroup * option string) * option error) :=
  DescribeLogGroupsPages fuel svc (pageRequest token) describeLogGroupsPage st.

(** The marker the callback leaves when it stops at the page [last]. *)
Definition stopMarker (logGroups : Slice.t LogGroup) (last : DescribeLogGroupsOutput)
    (marker : option string) : option string :=
  if (Slice.len logGroups >=? defaultBatchSize)%Z && hasNextPage last
  then NextToken last else marker.

(** The scheduler's side of resumption: poll again from the returned token
    until no token comes back.  The result lists the batches in order. *)
Fixpoint resumeChain (rounds fuel : nat) (svc : CloudWatchLogsAPI)
    (token : option string) : exec (list (Slice.t LogGroup) * option error) :=
  match rounds with
  | O => OutOfFuel
  | S rounds' =>
      d <- describeLogGroups fuel svc token ;;
      match d with
      | (_, _, Some err) => Return ([], Some err)
      | (logGroups, None, None) => Return ([logGroups], None)
      | (logGroups, Some marker, None) =>
          r <- resumeChain rounds' fuel svc (Some marker) ;;
          Return (logGroups :: fst r, snd r)
      end
  end.

(** ** Declarations the poller uses from other files and packages, left
    open: the schema and integration-type constants, the seconds-to-datetime
    helper [utils.UnixTimeToDateTime] with its result type, and the client
    lookup [getClient]. *)
Variable DateTime : Type.
Variable UnixTimeToDateTime : Z -> DateTime.
Variable CloudWatchLogGroupSchema : string.
Variable IntegrationTypeAws : string.
Variable getClient :
  awsmodels.ResourcePollerInput.t -> string -> string -> response CloudWatchLogsAPI.

Definition Snapshot : Type := awsmodels.CloudWatchLogsLogGroup DateTime.
Definition Entry : Type := apimodels.AddResourceEntry Snapshot.

Definition getCloudWatchLogsClient
    (pollerResourceInput : awsmodels.ResourcePollerInput.t) (region : string)
    : response CloudWatchLogsAPI :=
  match getClient pollerResourceInput "cloudwatchlogs" region with
  | Err err => Err err
  | Ok client => Ok client
  end.

(** The [for ... range logGroups.LogGroups] loop of [getLogGroup]. *)
Fixpoint getLogGroup_range (logGroups : list LogGroup) (logGroupName : string)
    : exec (option LogGroup) :=
  match logGroups with
  | [] => Return None
  | logGroup :: rest =>
      name <- deref (LogGroupName logGroup) ;;
      if String.eqb name logGroupName
      then Return (Some logGroup)
      else getLogGroup_range rest logGroupName
  end.

(** [getLogGroup] returns a specific cloudwatch logs log group. *)
Definition getLogGroup (svc : CloudWatchLogsAPI) (logGroupName : string)
    : exec (option LogGroup * option error) :=
  match DescribeLogGroups svc
          {| LogGroupNamePrefix := Some logGroupName; InputNextToken := None |} with
  | Err err => Return (None, Some (Wrap err "CloudWatchLogs.DescribeLogGroups"))
  | Ok logGroups =>
      found <- getLogGroup_range (LogGroups logGroups) logGroupName ;;
      Return (found, None)
  end.

(** [listTagsLogGroup] returns the tags for a given log group. *)
Definition listTagsLogGroup (svc : CloudWatchLogsAPI) (groupName : option string)
    : Tags * option error :=
  match ListTagsLogGroup svc groupName with
  | Err err => ([], Some (Wrap err "CloudWatchLogs ListTagsLogGroup"))
  | Ok tags => (tags, None)
  end.

(** [buildCloudWatchLogsLogGroupSnapshot] returns a complete snapshot of a
    LogGroup. *)
Definition buildCloudWatchLogsLogGroupSnapshot (svc : CloudWatchLogsAPI)
    (logGroup : LogGroup) : exec (option Snapshot * option error) :=
  creationTime <- deref (CreationTime logGroup) ;;
  let generic :=
    {| awsmodels.ResourceID := Arn logGroup;
       awsmodels.ResourceType := Some CloudWatchLogGroupSchema;
       awsmodels.TimeCreated := UnixTimeToDateTime (int64_div creationTime 1000) |} in
  let name := LogGroupName logGroup in
  let (tags, err) := listTagsLogGroup svc name in
  match err with
  | Some err => Return (None, Some err)
  | None =>
      Return (Some {| awsmodels.Generic := generic;
                      awsmodels.GenericAWS :=
                        {| awsmodels.AccountID := None;
                           awsmodels.ARN := Arn logGroup;
                           awsmodels.Name := name;
                           awsmodels.Region := None;
                           awsmodels.Tags := tags |};
                      awsmodels.KmsKeyId := KmsKeyId logGroup;
                      awsmodels.MetricFilterCount := MetricFilterCount logGroup;
                      awsmodels.RetentionInDays := RetentionInDays logGroup;
                      awsmodels.StoredBytes := StoredBytes logGroup |}, None)
  end.

(** [snapshot.Region = region; snapshot.AccountID = accountID]. *)
Definition setRegionAccount (snapshot : Snapshot) (region accountID : option string)
    : Snapshot :=
  let g := awsmodels.GenericAWS snapshot in
  {| awsmodels.Generic := awsmodels.Generic snapshot;
     awsmodels.GenericAWS :=
       {| awsmodels.AccountID := accountID;
          awsmodels.ARN := awsmodels.ARN g;
          awsmodels.Name := awsmodels.Name g;
          awsmodels.Region := region;
          awsmodels.Tags := awsmodels.Tags g |};
     awsmodels.KmsKeyId := awsmodels.KmsKeyId snapshot;
     awsmodels.MetricFilterCount := awsmodels.MetricFilterCount snapshot;
     awsmodels.RetentionInDays := awsmodels.RetentionInDays snapshot;
     awsmodels.StoredBytes := awsmodels.StoredBytes snapshot |}.

(** [PollCloudWatchLogsLogGroup] polls a single CloudWatchLogs LogGroup
    resource.  The third component is [scanRequest] after the call. *)
Definition PollCloudWatchLogsLogGroup
    (pollerResourceInput : awsmodels.ResourcePollerInput.t)
    (resourceARN : arn.ARN) (scanRequest : pollermodels.ScanEntry)
    : exec (option Snapshot * option error * pollermodels.ScanEntry) :=
  match getCloudWatchLogsClient pollerResourceInput (arn.Region resourceARN) with
  | Err err => Return (None, Some err, scanRequest)
  | Ok cwClient =>
      let lgResource := TrimPrefix (arn.Resource resourceARN) "log-group:" in
      lgName <- index0 (Split lgResource ":"%char) ;;
      r <- getLogGroup cwClient lgName ;;
      match r with
      | (None, err) => Return (None, err, scanRequest)
      | (Some _, Some err) => Return (None, Some err, scanRequest)
      | (Some logGroup, None) =>
          b <- buildCloudWatchLogsLogGroupSnapshot cwClient logGroup ;;
          match b with
          | (_, Some err) => Return (None, Some err, scanRequest)
          | (None, None) => Panic
          | (Some snapshot, None) =>
              let snapshot :=
                setRegionAccount snapshot (Some (arn.Region resourceARN))
                  (Some (arn.AccountID resourceARN)) in
              Return (Some snapshot, None,
                      {| pollermodels.ResourceID :=
                           awsmodels.ARN (awsmodels.GenericAWS snapshot) |})
          end
      end
  end.

(** The [for ... range logGroups] loop of [PollCloudWatchLogsLogGroups];
    [Err] is the early [return nil, nil, err]. *)
Fixpoint PollCloudWatchLogsLogGroups_range (svc : CloudWatchLogsAPI)
    (pollerInput : awsmodels.ResourcePollerInput.t)
    (logGroups : list LogGroup) (resources : Slice.t Entry)
    : exec (response (Slice.t Entry)) :=
  match logGroups with
  | [] => Return (Ok resources)
  | logGroup :: rest =>
      b <- buildCloudWatchLogsLogGroupSnapshot svc logGroup ;;
      match b with
      | (_, Some err) => Return (Err err)
      | (None, None) => Panic
      | (Some logGroupSnapshot, None) =>
          let logGroupSnapshot :=
            setRegionAccount logGroupSnapshot
              (awsmodels.ResourcePollerInput.Region pollerInput)
              (Some (arn.AccountID
                       (awsmodels.ResourcePollerInput.AuthSourceParsedARN pollerInput))) in
          id <- deref (awsmodels.ResourceID (awsmodels.Generic logGroupSnapshot)) ;;
          integrationID <- deref (awsmodels.ResourcePollerInput.IntegrationID pollerInput) ;;
          PollCloudWatchLogsLogGroups_range svc pollerInput rest
            (Slice.append resources
               [{| apimodels.Attributes := logGroupSnapshot;
                   apimodels.ID := id;
                   apimodels.IntegrationID := integrationID;
                   apimodels.IntegrationType := IntegrationTypeAws;
                   apimodels.Type_ := CloudWatchLogGroupSchema |}])
      end
  end.

(** [PollCloudWatchLogsLogGroups] gathers information on each CloudWatchLogs
    LogGroup for an AWS account. *)
Definition PollCloudWatchLogsLogGroups (fuel : nat)
    (pollerInput : awsmodels.ResourcePollerInput.t)
    : exec (Slice.t Entry * option string * option error) :=
  region <- deref (awsmodels.ResourcePollerInput.Region pollerInput) ;;
  match getCloudWatchLogsClient pollerInput region with
  | Err err => Return (None, None, Some err)
  | Ok cloudwatchLogGroupSvc =>
      d <- describeLogGroups fuel cloudwatchLogGroupSvc
             (awsmodels.ResourcePollerInput.NextPageToken pollerInput) ;;
      match d with
      | (_, _, Some err) => Return (None, None, Some err)
      | (logGroups, marker, None) =>
          r <- PollCloudWatchLogsLogGroups_range cloudwatchLogGroupSvc pollerInput
                 (Slice.elems logGroups) (Slice.make Entry) ;;
          match r with
          | Err err => Return (None, None, Some err)
          | Ok resources => Return (resources, marker, None)
          end
      end
  end.

End Poller.

(** ** Sample data *)

Definition sampleGroup (name : string) (created : Z) : LogGroup :=
  {| Arn := Some (String.append "arn:aws:logs:us-west-2:123456789012:log-group:" name);
     CreationTime := Some created;
     KmsKeyId := None;
     LogGroupName := Some name;
     MetricFilterCount := Some 0%Z;
     RetentionInDays := None;
     StoredBytes := Some 0%Z |}.

Definition g0 : LogGroup := sampleGroup "app" 1583020800123.
Definition g1 : LogGroup := sampleGroup "app-prod" 1583020800123.
Definition g2 : LogGroup := sampleGroup "app-test" 1583020800999.
Definition g3 : LogGroup := sampleGroup "db" 1583020801000.

(** Two pages, of three groups and of one. *)
Definition twoPages : CloudWatchLogsAPI :=
  pagedProvider [[g0; g1; g2]; [g3]] [("team"%string, Some "security"%string)].

(** The first page is served, the request for the second is throttled. *)
Definition throttledProvider : CloudWatchLogsAPI :=
  {| DescribeLogGroups := fun input =>
       match InputNextToken input with
       | None => Ok {| LogGroups := [g0; g1]; NextToken := Some "next"%string |}
       | Some _ => Err (ProviderError "ThrottlingException")
       end;
     ListTagsLogGroup := fun _ => Ok [] |}.

(** One page of three groups; the tags of "app-prod" cannot be fetched. *)
Definition tagsDeniedProvider : CloudWatchLogsAPI :=
  {| DescribeLogGroups := fun _ =>
       Ok {| LogGroups := [g0; g1; g2]; NextToken := None |};
     ListTagsLogGroup := fun name =>
       match name with
       | Some "app-prod"%string => Err (ProviderError "AccessDeniedException")
       | _ => Ok []
       end |}.

Definition sampleInput : awsmodels.ResourcePollerInput.t :=
  {| awsmodels.ResourcePollerInput.AuthSourceParsedARN :=
       {| arn.Partition := "aws"; arn.Service := "iam"; arn.Region := "";
          arn.AccountID := "123456789012"; arn.Resource := "role/PantherAuditRole" |};
     awsmodels.ResourcePollerInput.IntegrationID :=
       Some "189cddfa-6fd5-419e-8b0e-668105b67dc0"%string;
     awsmodels.ResourcePollerInput.Region := Some "us-west-2"%string;
     awsmodels.ResourcePollerInput.NextPageToken := None |}.

(** The ARN of a log group "app-pro" that no longer exists. *)
Definition vanishedARN : arn.ARN :=
  {| arn.Partition := "aws"; arn.Service := "logs"; arn.Region := "us-west-2";
     arn.AccountID := "123456789012"; arn.Resource := "log-group:app-pro:*" |}.

Definition sampleScan : pollermodels.ScanEntry :=
  {| pollermodels.ResourceID := None |}.

(** A client lookup that always yields [svc]; a datetime that is the
    number of seconds itself. *)
Definition clientOf (svc : CloudWatchLogsAPI)
    : awsmodels.ResourcePollerInput.t -> string -> string -> response CloudWatchLogsAPI :=
  fun _ _ _ => Ok svc.

Definition secondsOf (seconds : Z) : Z := seconds.

(** 250 groups in pages of 50. *)
Definition numberedGroup (n : nat) : LogGroup :=
  sampleGroup (tokenOf n) (1583020800000 + Z.of_nat n).

Definition fivePages : list (list LogGroup) :=
  map (fun k => map numberedGroup (seq (50 * k) 50)) (seq 0 5).

(** [hasByte c s]: the byte [c] occurs in [s]. *)
Fixpoint hasByte (c : ascii) (s : string) : bool :=
  match s with
  | EmptyString => false
  | String d s' => Ascii.eqb d c || hasByte c s'
  end.

(** [normalizedAs ... logGroup entry]: field by field, [entry] is the
    resource entry of [logGroup] as polled for [pollerInput] through [svc]. *)
Definition normalizedAs {DateTime : Type} (UnixTimeToDateTime : Z -> DateTime)
    (schema integrationType : string) (svc : CloudWatchLogsAPI)
    (pollerInput : awsmodels.ResourcePollerInput.t)
    (logGroup : LogGroup)
    (entry : apimodels.AddResourceEntry (awsmodels.CloudWatchLogsLogGroup DateTime))
    : Prop :=
  let snapshot := apimodels.Attributes entry in
  Some (apimodels.ID entry) = Arn logGroup
  /\ Some (apimodels.IntegrationID entry)
     = awsmodels.ResourcePollerInput.IntegrationID pollerInput
  /\ apimodels.IntegrationType entry = integrationType
  /\ apimodels.Type_ entry = schema
  /\ awsmodels.ResourceID (awsmodels.Generic snapshot) = Arn logGroup
  /\ awsmodels.ResourceType (awsmodels.Generic snapshot) = Some schema
  /\ (exists ct, CreationTime logGroup = Some ct
                 /\ awsmodels.TimeCreated (awsmodels.Generic snapshot)
                    = UnixTimeToDateTime (int64_div ct 1000))
  /\ awsmodels.ARN (awsmodels.GenericAWS snapshot) = Arn logGroup
  /\ awsmodels.Name (awsmodels.GenericAWS snapshot) = LogGroupName logGroup
  /\ awsmodels.Region (awsmodels.GenericAWS snapshot)
     = awsmodels.ResourcePollerInput.Region pollerInput
  /\ awsmodels.AccountID (awsmodels.GenericAWS snapshot)
     = Some (arn.AccountID (awsmodels.ResourcePollerInput.AuthSourceParsedARN pollerInput))
  /\ ListTagsLogGroup svc (LogGroupName logGroup)
     = Ok (awsmodels.Tags (awsmodels.GenericAWS snapshot))
  /\ awsmodels.KmsKeyId snapshot = KmsKeyId logGroup
  /\ awsmodels.MetricFilterCount snapshot = MetricFilterCount logGroup
  /\ awsmodels.RetentionInDays snapshot = RetentionInDays logGroup
  /\ awsmodels.StoredBytes snapshot = StoredBytes logGroup.

(** An ARN of the log group "app-prod" with a stream modifier. *)
Definition appProdARN : arn.ARN :=
  {| arn.Partition := "aws"; arn.Service := "logs"; arn.Region := "eu-west-1";
     arn.AccountID := "210987654321";
     arn.Resource := "log-group:app-prod:log-stream:web" |}.

(** The describe lookup is refused. *)
Definition deniedProvider : CloudWatchLogsAPI :=
  {| DescribeLogGroups := fun _ => Err (ProviderError "AccessDeniedException");
     ListTagsLogGroup := fun _ => Ok [] |}.

(** A provider answering by prefix, whose tag fetch is refused. *)
Definition untaggableProvider : CloudWatchLogsAPI :=
  {| DescribeLogGroups := DescribeLogGroups (prefixProvider [g0; g1; g2; g3]);
     ListTagsLogGroup := fun _ => Err (ProviderError "AccessDeniedException") |}.

(** ** Alert delivery (package api)

    [outputmodels.AlertOutput], [table.AlertItem] and the summary types are
    declared in other packages: the types of the fields that are only
    copied are left open, and so are the collaborators [alertsDB.GetAlert],
    [delivery.GetOutputs], [delivery.DeliverAlerts],
    [alertUtils.AlertItemToSummary] and [gatewayapi.ReplaceMapSliceNils]. *)

(** [xs[i]]: an index out of range panics. *)
Definition indexAt {A : Type} (xs : list A) (i : nat) : exec A :=
  match nth_error xs i with
  | Some x => Return x
  | None => Panic
  end.

Module api.

Section Delivery.

Variable AlertOutput : Type.
Variable OutputID : AlertOutput -> option string.

(** [contains]: the [for ... range list] loop compares [*item.OutputID]. *)
Fixpoint contains (list : list AlertOutput) (outputID : string) : exec bool :=
  match list with
  | [] => Return false
  | item :: rest =>
      id <- deref (OutputID item) ;;
      if String.eqb id outputID then Return true else contains rest outputID
  end.

(** The [for i, outputID := range inputIds] loop of [validateInputs], from
    index [i] on. *)
Fixpoint validateInputs_range (i : nat) (inputIds : list string)
    (outputIds : list AlertOutput)
    (invalid : Slice.t string) (valid : Slice.t AlertOutput)
    : exec (Slice.t string * Slice.t AlertOutput) :=
  match inputIds with
  | [] => Return (invalid, valid)
  | outputID :: rest =>
      known <- contains outputIds outputID ;;
      if negb known
      then validateInputs_range (S i) rest outputIds
             (Slice.append invalid [outputID]) valid
      else
        output <- indexAt outputIds i ;;
        validateInputs_range (S i) rest outputIds
          invalid (Slice.append valid [output])
  end.

Definition validateInputs (inputIds : list string) (outputIds : list AlertOutput)
    : exec (Slice.t string * Slice.t AlertOutput) :=
  validateInputs_range 0 inputIds outputIds None None.

(** [knownID outputIds id]: some output carries the ID [id]. *)
Definition knownID (outputIds : list AlertOutput) (id : string) : bool :=
  existsb (fun item => match OutputID item with
                       | Some x => String.eqb x id
                       | None => false
                       end) outputIds.

(** Field types of [table.AlertItem] and [models.Alert] that the code only
    copies.  A field name that several structs share is written with the
    struct's name in front in all but one of them. *)
Variable Time Severity OutputIdList Name Version Title : Type.

Record AlertItem : Type := {
  AlertID : string;
  CreationTime : Time;
  ItemSeverity : Severity;
  ItemOutputIds : OutputIdList;
  RuleDisplayName : Name;
  RuleVersion : Version;
  ItemTitle : Title
}.

Record Alert : Type := {
  AnalysisID : string;
  CreatedAt : Time;
  AlertSeverity : Severity;
  AlertOutputIds : OutputIdList;
  AnalysisName : Name;
  AlertVersion : option Version;
  Runbook : Name;
  AlertAlertID : option string;
  AlertTitle : Title;
  RetryCount : Z
}.

Record DeliverAlertInput : Type := {
  InputAlertID : string;
  InputOutputIds : list string
}.

Record DispatchStatus : Type := {
  Success : bool;
  StatusAlertID : string;
  StatusOutputID : string;
  Message : string
}.

Record DeliveryResponse : Type := {
  ResponseOutputID : string;
  Response : string;
  ResponseSuccess : bool
}.

(** [alertmodels.AlertSummary]: the two fields [DeliverAlert] sets, and the
    rest as [AlertItemToSummary] filled it. *)
Variable SummaryFields : Type.

Record AlertSummary : Type := {
  Summary : SummaryFields;
  DeliverySuccess : bool;
  DeliveryResponses : Slice.t DeliveryResponse
}.

Inductive apiError : Type :=
| Upstream (err : error)
| InternalError (message : string).

Variable GetAlert : string -> response (option AlertItem).
Variable GetOutputs : response (list AlertOutput).
Variable DeliverAlerts : list (Alert * Slice.t AlertOutput) -> list DispatchStatus.
Variable AlertItemToSummary : AlertItem -> AlertSummary.
Variable ReplaceMapSliceNils : AlertSummary -> AlertSummary.

(** The [for _, delivery := range dispatchStatuses] loop: the first failed
    delivery. *)
Fixpoint firstFailure (dispatchStatuses : list DispatchStatus) : option DispatchStatus :=
  match dispatchStatuses with
  | [] => None
  | delivery :: rest =>
      if negb (Success delivery) then Some delivery else firstFailure rest
  end.

(** The [&models.Alert{...}] literal of [DeliverAlert]. *)
Definition alertOfItem (alertItem : AlertItem) : Alert :=
  {| AnalysisID := AlertID alertItem;
     CreatedAt := CreationTime alertItem;
     AlertSeverity := ItemSeverity alertItem;
     AlertOutputIds := ItemOutputIds alertItem;
     AnalysisName := RuleDisplayName alertItem;
     AlertVersion := Some (RuleVersion alertItem);
     Runbook := RuleDisplayName alertItem;
     AlertAlertID := Some (AlertID alertItem);
     AlertTitle := ItemTitle alertItem;
     RetryCount := 0 |}.

(** [DeliverAlert] sends a specific alert to the specified destinations. *)
Definition DeliverAlert (input : DeliverAlertInput)
    : exec (option AlertSummary * option apiError) :=
  match GetAlert (InputAlertID input) with
  | Err err => Return (None, Some (Upstream err))
  | Ok None =>
      Return (None, Some (InternalError "Unable to find the specified alert!"))
  | Ok (Some alertItem) =>
      let alert := alertOfItem alertItem in
      match GetOutputs with
      | Err err => Return (None, Some (Upstream err))
      | Ok outputIds =>
          v <- validateInputs (InputOutputIds input) outputIds ;;
          let (invalidOutputIds, validOutputIds) := v in
          if (Slice.len invalidOutputIds >? 0)%Z
          then Return (None, Some (InternalError "Invalid destination(s) specified!"))
          else
            let dispatchStatuses := DeliverAlerts [(alert, validOutputIds)] in
            match firstFailure dispatchStatuses with
            | Some delivery =>
                Return (None,
                        Some (InternalError
                                (String.append "Failed to send the alert: "
                                               (Message delivery))))
            | None =>
                let alertSummary := AlertItemToSummary alertItem in
                first <- indexAt dispatchStatuses 0 ;;
                Return (Some (ReplaceMapSliceNils
                                {| Summary := Summary alertSummary;
                                   DeliverySuccess := Success first;
                                   DeliveryResponses :=
                                     Some [{| ResponseOutputID := StatusOutputID first;
                                              Response := Message first;
                                              ResponseSuccess := Success first |}] |}),
                        None)
            end
      end
  end.

End Delivery.

End api.

(** Sample outputs: the ID and a display name. *)
Definition sampleOutputID (o : option string * string) : option string := fst o.

Definition slackOutput : option string * string := (Some "out-slack"%string, "Slack"%string).
Definition emailOutput : option string * string := (Some "out-email"%string, "Email"%string).
Definition pagerOutput : option string * string := (Some "out-pager"%string, "Pager"%string).

(** ** Documentation generator (package mage) *)

(** [s[lo:hi]] on a string: panics unless [0 <= lo <= hi <= len(s)]. *)
Definition sliceStr (s : string) (lo hi : Z) : exec string :=
  if ((0 <=? lo) && (lo <=? hi) && (hi <=? Z.of_nat (String.length s)))%Z
  then Return (substring (Z.to_nat lo) (Z.to_nat (hi - lo)) s)
  else Panic.

(** [strings.Index(s, substr)]: the index of the first occurrence, or -1. *)
Definition Index (s substr : string) : Z :=
  match String.index 0 substr s with
  | Some n => Z.of_nat n
  | None => (-1)%Z
  end.

(** [strings.Join(elems, sep)]. *)
Definition Join (elems : list string) (sep : string) : string :=
  String.concat sep elems.

(** A Go map with string keys, as a list of bindings with distinct keys;
    [mapSet] is [m[k] = v]. *)
Fixpoint mapGet {V : Type} (m : list (string * V)) (k : string) : option V :=
  match m with
  | [] => None
  | (k', v) :: rest => if String.eqb k' k then Some v else mapGet rest k
  end.

Fixpoint mapSet {V : Type} (m : list (string * V)) (k : string) (v : V)
    : list (string * V) :=
  match m with
  | [] => [(k, v)]
  | (k', v') :: rest =>
      if String.eqb k' k then (k, v) :: rest else (k', v') :: mapSet rest k v
  end.

Module mage.

Local Open Scope string_scope.

(** The loop of [getTypeFields] over the bytes [rest] of [fields] that
    remain from [index] on.  Go ranges over the runes of [fields] and reads
    the byte at the start of each; the bytes it compares with, ',', '<' and
    '>', are ASCII and so always start a rune, and the loop does nothing at
    any other byte: going through every byte is the same loop. *)
Fixpoint getTypeFields_range (fields rest : string) (index startSubfieldIndex : nat)
    (insideBracketCount : Z) (subFields : Slice.t string)
    : exec (Slice.t string * nat) :=
  match rest with
  | EmptyString => Return (subFields, startSubfieldIndex)
  | String c rest' =>
      st <- (if Ascii.eqb c ","%char && (insideBracketCount =? 0)%Z
             then
               piece <- sliceStr fields (Z.of_nat startSubfieldIndex) (Z.of_nat index) ;;
               Return (Slice.append subFields [piece], S index)
             else Return (subFields, startSubfieldIndex)) ;;
      let insideBracketCount :=
        if Ascii.eqb c "<"%char then (insideBracketCount + 1)%Z
        else if Ascii.eqb c ">"%char then (insideBracketCount - 1)%Z
        else insideBracketCount in
      getTypeFields_range fields rest' (S index) (snd st) insideBracketCount (fst st)
  end.

Definition getTypeFields (complexType colType : string) : exec (Slice.t string) :=
  fields <- sliceStr colType (Z.of_nat (String.length complexType) + 1)
                     (Z.of_nat (String.length colType) - 1) ;;
  r <- getTypeFields_range fields fields 0 0 0 None ;;
  let (subFields, startSubfieldIndex) := r in
  rest <- sliceStr fields (Z.of_nat startSubfieldIndex)
                   (Z.of_nat (String.length fields)) ;;
  if (Z.of_nat (String.length rest) >? 0)%Z
  then Return (Slice.append subFields [rest])
  else Return subFields.

(** The one-byte string of a double quote. *)
Definition quote : string := String (ascii_of_nat 34) EmptyString.

Definition prettyPrintPrefix : string := "<br>".
Definition prettyPrintIndent : string := "&nbsp;&nbsp;".

Section PrettyPrint.

(** The recursive calls of [prettyPrintType]. *)
Variable rec : string -> string -> string -> string -> exec string.

Definition prettyPrintArrayType (logType colName colType indent : string)
    : exec string :=
  fields <- getTypeFields "array" colType ;;
  if negb (Slice.len fields =? 1)%Z then Panic
  else
    field0 <- indexAt (Slice.elems fields) 0 ;;
    inner <- rec logType colName field0 indent ;;
    Return ("[" ++ inner ++ "]").

Definition prettyPrintMapType (logType colName colType indent : string)
    : exec string :=
  fields <- getTypeFields "map" colType ;;
  if negb (Slice.len fields =? 2)%Z then Panic
  else
    keyType <- indexAt (Slice.elems fields) 0 ;;
    valType <- indexAt (Slice.elems fields) 1 ;;
    let indent := indent ++ prettyPrintIndent in
    key <- rec logType colName keyType indent ;;
    val <- rec logType colName valType indent ;;
    Return ("{" ++ prettyPrintPrefix ++ indent ++ key ++ ":" ++ val
                ++ prettyPrintPrefix ++ "}").

(** The [for _, field := range fields] loop of [prettyPrintStructType]. *)
Fixpoint prettyPrintStructType_range (logType colName indent : string)
    (fields : list string) (fieldTypes : list string) : exec (list string) :=
  match fields with
  | [] => Return fieldTypes
  | field :: rest =>
      let splitIndex := Index field ":" in
      if (splitIndex =? -1)%Z then Panic
      else
        fieldName <- sliceStr field 0 splitIndex ;;
        let name := quote ++ fieldName ++ quote in
        structFieldType <- sliceStr field (splitIndex + 1)
                                    (Z.of_nat (String.length field)) ;;
        pretty <- rec logType colName structFieldType indent ;;
        let fieldType := prettyPrintPrefix ++ indent ++ name ++ ":" ++ pretty in
        prettyPrintStructType_range logType colName indent rest
          (List.app fieldTypes [fieldType])
  end.

Definition prettyPrintStructType (logType colName colType indent : string)
    : exec string :=
  fields <- getTypeFields "struct" colType ;;
  if (Slice.len fields =? 0)%Z then Panic
  else
    let indent := indent ++ prettyPrintIndent in
    fieldTypes <- prettyPrintStructType_range logType colName indent
                    (Slice.elems fields) [] ;;
    Return ("{" ++ Join fieldTypes "," ++ prettyPrintPrefix ++ "}").

Definition prettyPrintComplexType (logType colName complexType colType indent : string)
    : exec string :=
  if String.eqb complexType "array"
  then prettyPrintArrayType logType colName colType indent
  else if String.eqb complexType "map"
  then prettyPrintMapType logType colName colType indent
  else if String.eqb complexType "struct"
  then prettyPrintStructType logType colName colType indent
  else Panic.

(** The [for _, ct := range complexTypes] loop of [prettyPrintType]. *)
Fixpoint prettyPrintType_range (logType colName colType indent : string)
    (complexTypes : list string) : exec string :=
  match complexTypes with
  | [] => Return colType
  | ct :: rest =>
      if HasPrefix colType ct
      then prettyPrintComplexType logType colName ct colType indent
      else prettyPrintType_range logType colName colType indent rest
  end.

End PrettyPrint.

(** [prettyPrintType]; each unit of fuel is one level of nested calls. *)
Fixpoint prettyPrintType (fuel : nat) (logType colName colType indent : string)
    : exec string :=
  match fuel with
  | O => OutOfFuel
  | S fuel' =>
      prettyPrintType_range (prettyPrintType fuel') logType colName colType indent
        ["array"; "struct"; "map"]
  end.

(** [awsglue.Column]. *)
Record Column : Type := {
  ColumnName : string;
  ColumnType : string;
  Comment : string;
  Required : bool
}.

Definition formatColumnName (name : string) : string :=
  "<code>" ++ name ++ "</code>".

Definition formatType (fuel : nat) (logType : string) (col : Column) : exec string :=
  pretty <- prettyPrintType fuel logType (ColumnName col) (ColumnType col) EmptyString ;;
  Return ("<code>" ++ pretty ++ "</code>").

(** ** Grouping the log types by category *)

Record logCategory : Type := {
  Name : string;
  LogTypes : Slice.t string
}.

Record supportedLogs : Type := {
  Categories : list (string * logCategory);
  TotalTypes : Z
}.

(** [fmt.Errorf] with its formatted message. *)
Inductive fmtError : Type :=
| Errorf (message : string).

Section SupportedLogs.

(** The registry's table type and its [LogType()] method. *)
Variable Table : Type.
Variable LogType : Table -> string.

(** The [for _, table := range tables] loop of [findSupportedLogs]. *)
Fixpoint findSupportedLogs_range (tables : list Table) (result : supportedLogs)
    : exec (option supportedLogs * option fmtError) :=
  match tables with
  | [] => Return (Some result, None)
  | table :: rest =>
      let logType := LogType table in
      let categoryType := Split logType "."%char in
      if negb (List.length categoryType =? 2)%nat
      then Return (None, Some (Errorf ("unexpected logType format: " ++ logType)))
      else
        name <- indexAt categoryType 0 ;;
        let category :=
          match mapGet (Categories result) name with
          | Some category => category
          | None => {| Name := name; LogTypes := None |}
          end in
        let category :=
          {| Name := Name category;
             LogTypes := Slice.append (LogTypes category) [logType] |} in
        findSupportedLogs_range rest
          {| Categories := mapSet (Categories result) name category;
             TotalTypes := (TotalTypes result + 1)%Z |}
  end.

(** [findSupportedLogs] groups the log registry by category; [tables] is
    what [registry.AvailableTables()] returns. *)
Definition findSupportedLogs (tables : list Table)
    : exec (option supportedLogs * option fmtError) :=
  findSupportedLogs_range tables {| Categories := []; TotalTypes := 0 |}.

End SupportedLogs.

(** The category of a log type: the text before its first dot. *)
Definition categoryOf (logType : string) : string :=
  hd EmptyString (Split logType "."%char).

End mage.

(** [depthAfter count s]: the bracket count of [getTypeFields] after the
    bytes of [s], starting from [count]. *)
Fixpoint depthAfter (count : Z) (s : string) : Z :=
  match s with
  | EmptyString => count
  | String c s' =>
      depthAfter (if Ascii.eqb c "<"%char then count + 1
                  else if Ascii.eqb c ">"%char then count - 1
                  else count)%Z s'
  end.

(** [noTopComma count s]: read from bracket count [count], no comma of [s]
    stands at bracket count zero. *)
Fixpoint noTopComma (count : Z) (s : string) : bool :=
  match s with
  | EmptyString => true
  | String c s' =>
      negb (Ascii.eqb c ","%char && (count =? 0)%Z)
      && noTopComma (if Ascii.eqb c "<"%char then count + 1
                     else if Ascii.eqb c ">"%char then count - 1
                     else count)%Z s'
  end.

(** The log types recorded under the category [name]. *)
Definition categoryLogTypes (categories : list (string * mage.logCategory))
    (name : string) : list string :=
  match mapGet categories name with
  | Some category => Slice.elems (mage.LogTypes category)
  | None => []
  end.

(** The log types of [logTypes] whose category is [name], in order. *)
Definition logTypesOf (name : string) (logTypes : list string) : list string :=
  filter (fun logType => String.eqb (mage.categoryOf logType) name) logTypes.

(** Sample collaborators of [DeliverAlert]: three configured outputs, one
    stored alert, a delivery that succeeds for every output it is given and
    reports the output's display name. *)
Definition sampleOutputs : list (option string * string) :=
  [slackOutput; emailOutput; pagerOutput].

Definition sampleAlertItem
    : api.AlertItem Z string (list string) (option string) string (option string) :=
  {| api.AlertID := "alert-1";
     api.CreationTime := 1583020800%Z;
     api.ItemSeverity := "HIGH"%string;
     api.ItemOutputIds := ["out-slack"%string];
     api.RuleDisplayName := Some "Root login"%string;
     api.RuleVersion := "v3"%string;
     api.ItemTitle := Some "Root account used"%string |}.

Definition sampleGetAlert (alertID : string)
    : response (option (api.AlertItem Z string (list string) (option string) string
                                      (option string))) :=
  if String.eqb alertID "alert-1" then Ok (Some sampleAlertItem) else Ok None.

Definition sampleDeliverAlerts
    (alertOutputMap :
       list (api.Alert Z string (list string) (option string) string (option string)
             * Slice.t (option string * string)))
    : list api.DispatchStatus :=
  flat_map (fun entry =>
              map (fun output =>
                     {| api.Success := true;
                        api.StatusAlertID := api.AnalysisID (fst entry);
                        api.StatusOutputID := snd output;
                        api.Message := "sent" |})
                  (Slice.elems (snd entry)))
           alertOutputMap.

Definition sampleSummary
    (alertItem : api.AlertItem Z string (list string) (option string) string
                               (option string))
    : api.AlertSummary string :=
  {| api.Summary := api.AlertID alertItem;
     api.DeliverySuccess := false;
     api.DeliveryResponses := None |}.

Definition keepSummary (summary : api.AlertSummary string) : api.AlertSummary string :=
  summary.

Definition pagerRequest : api.DeliverAlertInput :=
  {| api.InputAlertID := "alert-1"; api.InputOutputIds := ["out-pager"%string] |}.


(** * Properties *)

Unset Implicit Arguments.
Set Default Proof Using "Type".

(** ** Slices, integers and strings *)

Lemma elems_append (A : Type) (s : Slice.t A) (xs : list A) :
  Slice.elems (Slice.append s xs) = Slice.elems s ++ xs.
Proof.
  destruct s as [l|]; destruct xs; reflexivity.
Qed.

Lemma len_append (A : Type) (s : Slice.t A) (xs : list A) :
  Slice.len (Slice.append s xs) = (Slice.len s + Z.of_nat (List.length xs))%Z.
Proof.
  unfold Slice.len. rewrite elems_append, length_app. lia.
Qed.

Lemma wrap64_id (z : Z) : in_int64 z -> wrap64 z = z.
Proof.
  unfold in_int64, int64_min, int64_max, wrap64. intros H.
  rewrite Z.mod_small; lia.
Qed.

Lemma quot_in_int64 (a : Z) : in_int64 a -> in_int64 (Z.quot a 1000).
Proof.
  unfold in_int64, int64_min, int64_max. intros H.
  destruct (Z.le_gt_cases 0 a) as [Hpos | Hneg].
  - assert (0 <= Z.quot a 1000 <= a)%Z.
    { split; [apply Z.quot_pos; lia |].
      rewrite Z.quot_div_nonneg by lia.
      apply Z.div_le_upper_bound; lia. }
    lia.
  - assert (a <= Z.quot a 1000 <= 0)%Z.
    { rewrite <- (Z.opp_involutive a), Z.quot_opp_l by lia.
      assert (0 <= Z.quot (- a) 1000 <= - a)%Z.
      { split; [apply Z.quot_pos; lia |].
        rewrite Z.quot_div_nonneg by lia.
        apply Z.div_le_upper_bound; lia. }
      lia. }
    lia.
Qed.

Lemma int64_div_1000 (a : Z) : in_int64 a -> int64_div a 1000 = Z.quot a 1000.
Proof.
  intros H. unfold int64_div. apply wrap64_id, quot_in_int64, H.
Qed.

Lemma Split_not_nil (s : string) (sep : ascii) : Split s sep <> [].
Proof.
  induction s as [|c s IH]; simpl; [discriminate |].
  destruct (Ascii.eqb c sep); [discriminate |].
  destruct (Split s sep); discriminate.
Qed.

Lemma index0_Split (s : string) (sep : ascii) :
  exists w, index0 (Split s sep) = Return w.
Proof.
  destruct (Split s sep) as [|w ws] eqn:E.
  - exfalso. exact (Split_not_nil s sep E).
  - exists w. reflexivity.
Qed.

(** ** The paginated enumerator *)

Section Enumeration.

Variable batch : Z.

Lemma items_snoc pages last : items (pages ++ [last]) = items pages ++ LogGroups last.
Proof.
  unfold items. rewrite map_app, concat_app. simpl. now rewrite app_nil_r.
Qed.

Lemma items_cons page pages : items (page :: pages) = LogGroups page ++ items pages.
Proof. reflexivity. Qed.

Lemma continues_app count front back :
  continues batch count (front ++ back) =
  continues batch count front
  && continues batch (count + Z.of_nat (List.length (items front))) back.
Proof.
  revert count. induction front as [|p front IH]; intros count; simpl.
  - now rewrite Z.add_0_r.
  - rewrite IH, items_cons, length_app, andb_assoc. unfold pageSize.
    do 2 f_equal. lia.
Qed.

(** One turn of the loop on a page that keeps the count below the ceiling
    and announces a further page. *)
Lemma pagesLoop_continue fuel svc token page acc m :
  DescribeLogGroups svc (pageRequest token) = Ok page ->
  hasNextPage page = true ->
  (Slice.len acc + pageSize page <? batch)%Z = true ->
  pagesLoop batch (S fuel) svc token (acc, m) =
  pagesLoop batch fuel svc (NextToken page) (Slice.append acc (LogGroups page), m).
Proof.
  intros Hreq Hnext Hlow. unfold pagesLoop. simpl. rewrite Hreq.
  unfold describeLogGroupsPage.
  rewrite len_append. fold (pageSize page).
  replace (Slice.len acc + pageSize page >=? batch)%Z with false by lia.
  rewrite Hnext. reflexivity.
Qed.

(** One turn of the loop on the page at which it stops. *)
Lemma pagesLoop_stop fuel svc token last acc m :
  DescribeLogGroups svc (pageRequest token) = Ok last ->
  (Slice.len acc + pageSize last <? batch)%Z = false \/ hasNextPage last = false ->
  pagesLoop batch (S fuel) svc token (acc, m) =
  Return ((Slice.append acc (LogGroups last),
           stopMarker batch (Slice.append acc (LogGroups last)) last m), None).
Proof.
  intros Hreq Hstop. unfold pagesLoop. simpl. rewrite Hreq.
  unfold describeLogGroupsPage, stopMarker.
  rewrite len_append. fold (pageSize last).
  destruct (Slice.len acc + pageSize last >=? batch)%Z eqn:Hge; simpl.
  - destruct (hasNextPage last); reflexivity.
  - destruct Hstop as [Hlow | Hnext]; [lia |]. rewrite Hnext. reflexivity.
Qed.

(** A request that fails ends the loop with the error. *)
Lemma pagesLoop_fail fuel svc token e st :
  DescribeLogGroups svc (pageRequest token) = Err e ->
  pagesLoop batch (S fuel) svc token st = Return (st, Some e).
Proof.
  intros Hreq. unfold pagesLoop. simpl. rewrite Hreq. reflexivity.
Qed.

(** Provider behaviour determines the run: with more fuel than pages, the
    loop returns every page up to the stopping one. *)
Lemma pagesLoop_complete svc token front token' :
  walk svc token front token' ->
  forall last acc m fuel,
    DescribeLogGroups svc (pageRequest token') = Ok last ->
    continues batch (Slice.len acc) front = true ->
    continues batch (Slice.len acc) (front ++ [last]) = false
    \/ hasNextPage last = false ->
    (List.length front < fuel)%nat ->
    exists logGroups,
      pagesLoop batch fuel svc token (acc, m)
      = Return ((logGroups, stopMarker batch logGroups last m), None)
      /\ Slice.elems logGroups = Slice.elems acc ++ items (front ++ [last]).
Proof.
  induction 1 as [token | token page pages token' Hreq Hnext Hwalk IH];
    intros last acc m fuel Hlast Hcont Hstop Hfuel.
  - destruct fuel as [|fuel]; [simpl in Hfuel; lia |].
    exists (Slice.append acc (LogGroups last)). split.
    + apply pagesLoop_stop; [exact Hlast |].
      destruct Hstop as [Hc | Hn]; [left | right; exact Hn].
      simpl in Hc. now rewrite andb_true_r in Hc.
    + rewrite elems_append. simpl. unfold items. simpl. now rewrite app_nil_r.
  - destruct fuel as [|fuel]; [simpl in Hfuel; lia |].
    simpl in Hcont. apply andb_prop in Hcont. destruct Hcont as [Hlow Hcont].
    rewrite (pagesLoop_continue fuel _ _ _ acc m Hreq Hnext Hlow).
    destruct (IH last (Slice.append acc (LogGroups page)) m fuel) as [lgs [Hrun Hel]].
    + exact Hlast.
    + rewrite len_append. exact Hcont.
    + destruct Hstop as [Hc | Hn]; [left | right; exact Hn].
      simpl in Hc. rewrite Hlow in Hc. simpl in Hc. rewrite len_append. exact Hc.
    + simpl in Hfuel. lia.
    + exists lgs. split; [exact Hrun |].
      rewrite Hel, elems_append, <- app_assoc. reflexivity.
Qed.

(** A failing request after [front] makes the loop return the error. *)
Lemma pagesLoop_error svc token front token' :
  walk svc token front token' ->
  forall e acc m fuel,
    DescribeLogGroups svc (pageRequest token') = Err e ->
    continues batch (Slice.len acc) front = true ->
    (List.length front < fuel)%nat ->
    exists st, pagesLoop batch fuel svc token (acc, m) = Return (st, Some e).
Proof.
  induction 1 as [token | token page pages token' Hreq Hnext Hwalk IH];
    intros e acc m fuel Hlast Hcont Hfuel.
  - destruct fuel as [|fuel]; [simpl in Hfuel; lia |].
    exists (acc, m). now apply pagesLoop_fail.
  - destruct fuel as [|fuel]; [simpl in Hfuel; lia |].
    simpl in Hcont. apply andb_prop in Hcont. destruct Hcont as [Hlow Hcont].
    rewrite (pagesLoop_continue fuel _ _ _ acc m Hreq Hnext Hlow).
    apply IH; [exact Hlast | now rewrite len_append | simpl in Hfuel; lia].
Qed.

(** Every run that returns without error went through a walk of pages that
    kept the count below the ceiling and stopped at one more page. *)
Lemma pagesLoop_sound fuel :
  forall svc token acc m logGroups marker,
    pagesLoop batch fuel svc token (acc, m) = Return ((logGroups, marker), None) ->
    exists front last token',
      walk svc token front token'
      /\ DescribeLogGroups svc (pageRequest token') = Ok last
      /\ continues batch (Slice.len acc) front = true
      /\ (continues batch (Slice.len acc) (front ++ [last]) = false
          \/ hasNextPage last = false)
      /\ Slice.elems logGroups = Slice.elems acc ++ items (front ++ [last])
      /\ marker = stopMarker batch logGroups last m.
Proof.
  induction fuel as [|fuel IH]; intros svc token acc m logGroups marker Hrun.
  - discriminate.
  - destruct (DescribeLogGroups svc (pageRequest token)) as [page | e] eqn:Hreq.
    + destruct ((Slice.len acc + pageSize page <? batch)%Z && hasNextPage page)
        eqn:Hgo.
      * apply andb_prop in Hgo. destruct Hgo as [Hlow Hnext].
        rewrite (pagesLoop_continue fuel _ _ _ acc m Hreq Hnext Hlow) in Hrun.
        apply IH in Hrun.
        destruct Hrun as (front & last & token' & Hw & Hl & Hc & Hs & He & Hm).
        exists (page :: front), last, token'. repeat split.
        -- now apply walk_cons with (page := page).
        -- exact Hl.
        -- simpl. rewrite Hlow. simpl. now rewrite len_append in Hc.
        -- destruct Hs as [Hs | Hs]; [left | right; exact Hs].
           simpl. rewrite Hlow. simpl. now rewrite len_append in Hs.
        -- rewrite He, elems_append, <- app_assoc. reflexivity.
        -- exact Hm.
      * apply andb_false_iff in Hgo.
        rewrite (pagesLoop_stop fuel _ _ _ acc m Hreq Hgo) in Hrun.
        injection Hrun as Hlg Hmk. subst logGroups marker.
        exists [], page, token. repeat split.
        -- apply walk_nil.
        -- exact Hreq.
        -- destruct Hgo as [Hlow | Hn]; [left | right; exact Hn].
           simpl. now rewrite Hlow.
        -- rewrite elems_append. unfold items. simpl. now rewrite app_nil_r.
    + rewrite (pagesLoop_fail fuel _ _ _ (acc, m) Hreq) in Hrun. discriminate.
Qed.

Lemma describeLogGroups_loop fuel svc nextMarker :
  describeLogGroups batch fuel svc nextMarker =
  (r <- pagesLoop batch fuel svc nextMarker
          (@pair (Slice.t LogGroup) (option string) None None) ;;
   match r with
   | (_, Some err) =>
       Return (None, None, Some (Wrap err "CloudWatchLogs.DescribeLogGroups"))
   | ((logGroups, marker), None) => Return (logGroups, marker, None)
   end).
Proof. reflexivity. Qed.

Lemma describeLogGroups_complete svc token front token' last fuel :
  walk svc token front token' ->
  DescribeLogGroups svc (pageRequest token') = Ok last ->
  continues batch 0 front = true ->
  continues batch 0 (front ++ [last]) = false \/ hasNextPage last = false ->
  (List.length front < fuel)%nat ->
  exists logGroups,
    describeLogGroups batch fuel svc token
    = Return (logGroups, stopMarker batch logGroups last None, None)
    /\ Slice.elems logGroups = items (front ++ [last]).
Proof.
  intros Hw Hl Hc Hs Hf.
  destruct (pagesLoop_complete svc token front token' Hw last None None fuel Hl Hc Hs Hf)
    as [lgs [Hrun Hel]].
  exists lgs. split; [| exact Hel].
  rewrite describeLogGroups_loop, Hrun. reflexivity.
Qed.

Lemma describeLogGroups_sound fuel svc nextMarker logGroups marker :
  describeLogGroups batch fuel svc nextMarker = Return (logGroups, marker, None) ->
  exists front last token',
    walk svc nextMarker front token'
    /\ DescribeLogGroups svc (pageRequest token') = Ok last
    /\ continues batch 0 front = true
    /\ (continues batch 0 (front ++ [last]) = false \/ hasNextPage last = false)
    /\ Slice.elems logGroups = items (front ++ [last])
    /\ marker = stopMarker batch logGroups last None.
Proof.
  rewrite describeLogGroups_loop. intros Hrun.
  destruct (pagesLoop batch fuel svc nextMarker
              (@pair (Slice.t LogGroup) (option string) None None))
    as [[[lgs mk] [e|]] | |] eqn:Hloop; simpl in Hrun; try discriminate.
  injection Hrun as Hlg Hmk. subst lgs mk.
  apply (pagesLoop_sound fuel svc nextMarker None None logGroups marker Hloop).
Qed.

Lemma describeLogGroups_error svc token front token' e fuel :
  walk svc token front token' ->
  DescribeLogGroups svc (pageRequest token') = Err e ->
  continues batch 0 front = true ->
  (List.length front < fuel)%nat ->
  describeLogGroups batch fuel svc token
  = Return (None, None, Some (Wrap e "CloudWatchLogs.DescribeLogGroups")).
Proof.
  intros Hw Hl Hc Hf.
  destruct (pagesLoop_error svc token front token' Hw e None None fuel Hl Hc Hf)
    as [st Hrun].
  rewrite describeLogGroups_loop, Hrun. destruct st. reflexivity.
Qed.

(** Whatever the run, an error comes with nil items and a nil token. *)
Lemma describeLogGroups_error_nil fuel svc nextMarker logGroups marker err :
  describeLogGroups batch fuel svc nextMarker = Return (logGroups, marker, Some err) ->
  logGroups = None /\ marker = None.
Proof.
  rewrite describeLogGroups_loop.
  destruct (pagesLoop batch fuel svc nextMarker
              (@pair (Slice.t LogGroup) (option string) None None))
    as [[[lgs mk] [e|]] | |]; simpl; intros H; try discriminate.
  injection H as Hlg Hmk _. now subst.
Qed.

(** The count of a run of pages that did not stop is the sum of the sizes. *)
Lemma continues_last count front last :
  continues batch count front = true ->
  continues batch count (front ++ [last])
  = (count + Z.of_nat (List.length (items (front ++ [last]))) <? batch)%Z.
Proof.
  intros Hc. rewrite continues_app, Hc. simpl. rewrite andb_true_r.
  rewrite items_snoc, length_app. unfold pageSize. f_equal. lia.
Qed.

Lemma hasNextPage_token page :
  hasNextPage page = true -> exists t, NextToken page = Some t /\ t <> EmptyString.
Proof.
  unfold hasNextPage. destruct (NextToken page) as [[|c t]|]; try discriminate.
  intros _. exists (String c t). split; [reflexivity | discriminate].
Qed.

End Enumeration.

(** ** Runs over a provider that holds finitely many pages *)

Lemma items_app front back : items (front ++ back) = items front ++ items back.
Proof.
  unfold items. now rewrite map_app, concat_app.
Qed.

Lemma walk_split svc f1 p f2 :
  forall token token',
    walk svc token (f1 ++ p :: f2) token' ->
    exists t1,
      walk svc token f1 t1
      /\ DescribeLogGroups svc (pageRequest t1) = Ok p
      /\ hasNextPage p = true
      /\ walk svc (NextToken p) f2 token'.
Proof.
  induction f1 as [|q f1 IH]; intros token token' Hw; simpl in Hw.
  - inversion Hw; subst. exists token. repeat split; try assumption. apply walk_nil.
  - inversion Hw as [| ? ? ? ? Hreq Hnext Hrest]; subst.
    destruct (IH _ _ Hrest) as (t1 & Hw1 & Hp & Hn & Hw2).
    exists t1. repeat split; try assumption.
    now apply walk_cons with (page := q).
Qed.

(** Either a run of pages never reaches the ceiling, or there is a first
    page at which it does. *)
Lemma continues_split batch front :
  forall count,
    continues batch count front = true
    \/ exists f1 p f2,
         front = f1 ++ p :: f2
         /\ continues batch count f1 = true
         /\ continues batch count (f1 ++ [p]) = false.
Proof.
  induction front as [|p rest IH]; intros count; [left; reflexivity |].
  destruct (count + pageSize p <? batch)%Z eqn:Hlow.
  - destruct (IH (count + pageSize p)%Z) as [Hall | (f1 & q & f2 & Hf & Hc1 & Hc2)].
    + left. simpl. now rewrite Hlow.
    + right. exists (p :: f1), q, f2. subst rest. repeat split.
      * simpl. now rewrite Hlow.
      * simpl. now rewrite Hlow.
  - right. exists [], p, rest. repeat split. simpl. now rewrite Hlow.
Qed.

Lemma continues_below batch front :
  forall count,
    (count + Z.of_nat (List.length (items front)) < batch)%Z ->
    continues batch count front = true.
Proof.
  induction front as [|p rest IH]; intros count Hlt; [reflexivity |].
  rewrite items_cons, length_app in Hlt. simpl. unfold pageSize in *.
  apply andb_true_intro. split; [lia |]. apply IH. lia.
Qed.

(** With a ceiling above the number of items, one call returns every page
    and no token. *)
Lemma describeLogGroups_unbounded big svc token pages fuel :
  serves svc token pages ->
  (Z.of_nat (List.length (items pages)) < big)%Z ->
  (List.length pages <= fuel)%nat ->
  exists all,
    describeLogGroups big fuel svc token = Return (all, None, None)
    /\ Slice.elems all = items pages.
Proof.
  intros (front & last & token' & Hp & Hw & Hl & Hn) Hbig Hfuel. subst pages.
  rewrite length_app in Hfuel. simpl in Hfuel.
  destruct (describeLogGroups_complete big svc token front token' last fuel Hw Hl)
    as [all [Hrun Hel]].
  - apply continues_below. rewrite items_app, length_app in Hbig. lia.
  - now right.
  - lia.
  - exists all. split; [| exact Hel].
    rewrite Hrun. unfold stopMarker. rewrite Hn, andb_false_r. reflexivity.
Qed.

(** One call on a provider that holds the pages [pages]: it returns the
    pages up to the first one at which the count reaches the ceiling (or all
    of them), and the token of the page after when pages remain. *)
Lemma describeLogGroups_step batch svc token pages fuel :
  serves svc token pages ->
  (List.length pages <= fuel)%nat ->
  exists taken last rest logGroups marker,
    pages = taken ++ last :: rest
    /\ describeLogGroups batch fuel svc token = Return (logGroups, marker, None)
    /\ Slice.elems logGroups = items (taken ++ [last])
    /\ continues batch 0 taken = true
    /\ ((rest = [] /\ hasNextPage last = false /\ marker = None)
        \/ (rest <> [] /\ (Slice.len logGroups >= batch)%Z
            /\ hasNextPage last = true
            /\ marker = NextToken last
            /\ serves svc marker rest)).
Proof.
  intros (front & final & token' & Hp & Hw & Hl & Hfinal) Hfuel. subst pages.
  rewrite length_app in Hfuel. simpl in Hfuel.
  destruct (continues_split batch front 0) as [Hall | (f1 & p & f2 & Hf & Hc1 & Hc2)].
  - destruct (describeLogGroups_complete batch svc token front token' final fuel
                Hw Hl Hall) as [lgs [Hrun Hel]]; [now right | lia |].
    exists front, final, [], lgs, None.
    split; [reflexivity |]. split.
    + rewrite Hrun. unfold stopMarker. rewrite Hfinal, andb_false_r. reflexivity.
    + split; [exact Hel |]. split; [exact Hall |]. left. now repeat split.
  - subst front.
    destruct (walk_split svc f1 p f2 token token' Hw) as (t1 & Hw1 & Hp & Hnext & Hw2).
    rewrite length_app in Hfuel. simpl in Hfuel.
    destruct (describeLogGroups_complete batch svc token f1 t1 p fuel Hw1 Hp Hc1)
      as [lgs [Hrun Hel]]; [now left | lia |].
    assert (Hge : (Slice.len lgs >= batch)%Z).
    { rewrite (continues_last batch 0 f1 p Hc1) in Hc2.
      unfold Slice.len. rewrite Hel. lia. }
    exists f1, p, (f2 ++ [final]), lgs, (NextToken p).
    split; [now rewrite <- app_assoc |]. split.
    + rewrite Hrun. unfold stopMarker. rewrite Hnext.
      replace (Slice.len lgs >=? batch)%Z with true by lia. reflexivity.
    + split; [exact Hel |]. split; [exact Hc1 |]. right.
      split; [now destruct f2 |]. split; [exact Hge |]. split; [exact Hnext |].
      split; [reflexivity |].
      exists f2, final, token'. now repeat split.
Qed.

(** The chain of resumed calls returns, batch after batch, the pages the
    provider holds. *)
Lemma resumeChain_complete batch svc :
  forall n pages token rounds fuel,
    (List.length pages <= n)%nat ->
    serves svc token pages ->
    (List.length pages <= rounds)%nat ->
    (List.length pages <= fuel)%nat ->
    exists batches,
      resumeChain batch rounds fuel svc token = Return (batches, None)
      /\ List.concat (map (@Slice.elems LogGroup) batches) = items pages.
Proof.
  induction n as [|n IH]; intros pages token rounds fuel Hn Hserves Hrounds Hfuel;
    destruct (describeLogGroups_step batch svc token pages fuel Hserves Hfuel)
      as (taken & last & rest & lgs & marker & Hp & Hrun & Hel & _ & Hcase);
    subst pages; rewrite length_app in *; simpl in Hn, Hrounds, Hfuel; [lia |].
  destruct rounds as [|rounds]; [lia |].
  destruct Hcase as [(Hrest & _ & Hm) | (Hrest & _ & Hnext & Hm & Hserved)].
  - subst rest marker. exists [lgs]. split.
    + simpl. rewrite Hrun. reflexivity.
    + simpl. now rewrite app_nil_r.
  - destruct (hasNextPage_token last Hnext) as [t [Ht _]].
    destruct (IH rest marker rounds fuel) as [bs [Hchain Hcat]];
      [lia | exact Hserved | lia | lia |].
    exists (lgs :: bs). split.
    + simpl. rewrite Hrun. rewrite Hm, Ht. simpl.
      rewrite Hm, Ht in Hchain. rewrite Hchain. reflexivity.
    + simpl. rewrite Hcat, Hel.
      replace (taken ++ last :: rest) with ((taken ++ [last]) ++ rest)
        by now rewrite <- app_assoc.
      now rewrite (items_app (taken ++ [last])).
Qed.

(** ** Continuation token and page boundaries *)

(** C2. A run of [describeLogGroups] that returns without error stopped at
    a page [last] reached by following the provider's tokens.  The returned
    token is present and non-empty exactly when the accumulated count
    reached the ceiling and [last] announced a further page; it is nil when
    the provider announced no further page; and when the ceiling stopped
    the run before the end, it is the next-page token of [last].  Such runs
    exist: on a provider that holds finitely many pages the call returns,
    with no token when it took the last page and with the next-page token of
    the page it stopped at otherwise. *)
Theorem describeLogGroups_token (batch : Z) (svc : CloudWatchLogsAPI)
    (nextMarker : option string) :
  (forall fuel logGroups marker,
      describeLogGroups batch fuel svc nextMarker = Return (logGroups, marker, None) ->
      exists front last token',
        walk svc nextMarker front token'
        /\ DescribeLogGroups svc (pageRequest token') = Ok last
        /\ Slice.elems logGroups = items (front ++ [last])
        /\ ((exists t, marker = Some t /\ t <> EmptyString)
            <-> (Slice.len logGroups >= batch)%Z /\ hasNextPage last = true)
        /\ (hasNextPage last = false -> marker = None)
        /\ ((Slice.len logGroups >= batch)%Z -> hasNextPage last = true ->
            marker = NextToken last))
  /\ (forall pages fuel,
        serves svc nextMarker pages ->
        (List.length pages <= fuel)%nat ->
        exists taken last rest logGroups marker,
          pages = taken ++ last :: rest
          /\ describeLogGroups batch fuel svc nextMarker
             = Return (logGroups, marker, None)
          /\ Slice.elems logGroups = items (taken ++ [last])
          /\ ((rest = [] /\ marker = None)
              \/ (rest <> [] /\ (Slice.len logGroups >= batch)%Z
                  /\ marker = NextToken last
                  /\ exists t, marker = Some t /\ t <> EmptyString))).
Proof.
  split.
  - intros fuel logGroups marker Hrun.
    destruct (describeLogGroups_sound batch fuel svc nextMarker logGroups marker Hrun)
      as (front & last & token' & Hw & Hl & _ & _ & Hel & Hm).
    exists front, last, token'.
    split; [exact Hw |]. split; [exact Hl |]. split; [exact Hel |].
    unfold stopMarker in Hm.
    destruct (Slice.len logGroups >=? batch)%Z eqn:Hge;
      destruct (hasNextPage last) eqn:Hn; simpl in Hm; subst marker.
    + destruct (hasNextPage_token last Hn) as [t [Ht Hne]].
      split; [| split]; [| discriminate | reflexivity].
      split; [intros _; split; [lia | reflexivity] |].
      intros _. exists t. now split.
    + split; [| split]; [| reflexivity | discriminate].
      split; [intros [t [Ht _]]; discriminate | intros [_ H]; discriminate].
    + split; [| split]; [| discriminate | lia].
      split; [intros [t [Ht _]]; discriminate | intros [H _]; lia].
    + split; [| split]; [| reflexivity | discriminate].
      split; [intros [t [Ht _]]; discriminate | intros [H _]; lia].
  - intros pages fuel Hserves Hfuel.
    destruct (describeLogGroups_step batch svc nextMarker pages fuel Hserves Hfuel)
      as (taken & last & rest & lgs & marker & Hp & Hrun & Hel & _ & Hcase).
    exists taken, last, rest, lgs, marker.
    split; [exact Hp |]. split; [exact Hrun |]. split; [exact Hel |].
    destruct Hcase as [(Hrest & _ & Hm) | (Hrest & Hge & Hnext & Hm & _)].
    + left. now split.
    + right. split; [exact Hrest |]. split; [exact Hge |]. split; [exact Hm |].
      rewrite Hm. apply hasNextPage_token, Hnext.
Qed.

(** C3. On a provider that holds finitely many pages, [describeLogGroups]
    returns the concatenation, in provider order, of whole pages: a run of
    pages from the start up to a page [last], the count being below the
    ceiling after every page before [last] and at least the ceiling at
    [last] when pages remain.  Every run that returns without error has
    this shape.  Nothing caps the last page: for every ceiling there is a
    provider on which the returned count exceeds it. *)
Theorem describeLogGroups_whole_pages (batch : Z) :
  (forall svc token pages fuel,
      serves svc token pages ->
      (List.length pages <= fuel)%nat ->
      exists taken last rest logGroups marker,
        pages = taken ++ last :: rest
        /\ describeLogGroups batch fuel svc token = Return (logGroups, marker, None)
        /\ Slice.elems logGroups = List.concat (map LogGroups (taken ++ [last]))
        /\ continues batch 0 taken = true
        /\ (rest = [] \/ (Slice.len logGroups >= batch)%Z))
  /\ (forall fuel svc nextMarker logGroups marker,
        describeLogGroups batch fuel svc nextMarker = Return (logGroups, marker, None) ->
        exists front last token',
          walk svc nextMarker front token'
          /\ DescribeLogGroups svc (pageRequest token') = Ok last
          /\ Slice.elems logGroups = List.concat (map LogGroups (front ++ [last]))
          /\ continues batch 0 front = true
          /\ ((Slice.len logGroups >= batch)%Z \/ hasNextPage last = false)
          /\ (0 < batch -> Slice.len logGroups - pageSize last < batch)%Z)
  /\ (exists svc logGroups marker,
        describeLogGroups batch 1 svc None = Return (logGroups, marker, None)
        /\ (Slice.len logGroups > batch)%Z).
Proof.
  split; [| split].
  - intros svc token pages fuel Hserves Hfuel.
    destruct (describeLogGroups_step batch svc token pages fuel Hserves Hfuel)
      as (taken & last & rest & lgs & marker & Hp & Hrun & Hel & Hc & Hcase).
    exists taken, last, rest, lgs, marker.
    split; [exact Hp |]. split; [exact Hrun |]. split; [exact Hel |].
    split; [exact Hc |].
    destruct Hcase as [(Hrest & _) | (_ & Hge & _)]; [left | right]; assumption.
  - intros fuel svc nextMarker logGroups marker Hrun.
    destruct (describeLogGroups_sound batch fuel svc nextMarker logGroups marker Hrun)
      as (front & last & token' & Hw & Hl & Hc & Hs & Hel & _).
    exists front, last, token'.
    split; [exact Hw |]. split; [exact Hl |]. split; [exact Hel |].
    split; [exact Hc |].
    assert (Hlen : Slice.len logGroups
                   = Z.of_nat (List.length (items (front ++ [last])))).
    { unfold Slice.len. now rewrite Hel. }
    split.
    + destruct Hs as [Hs | Hs]; [left | right; exact Hs].
      rewrite (continues_last batch 0 front last Hc) in Hs. lia.
    + intros Hpos. rewrite items_snoc, length_app in Hlen. unfold pageSize.
      destruct front as [|p front]; [simpl in Hlen; lia |].
      destruct (@exists_last _ (p :: front)) as (init & q & Hq); [discriminate |].
      rewrite Hq in Hc. rewrite Hq in Hlen.
      rewrite (continues_last batch 0 init q) in Hc.
      * lia.
      * rewrite continues_app in Hc. apply andb_prop in Hc. tauto.
  - set (n := (Z.to_nat batch + 1)%nat).
    set (page := {| LogGroups := repeat g0 n; NextToken := None |}).
    destruct (describeLogGroups_complete batch (pagedProvider [repeat g0 n] [])
                None [] None page 1) as [lgs [Hr Hel]].
    + apply walk_nil.
    + reflexivity.
    + reflexivity.
    + right. reflexivity.
    + simpl. lia.
    + exists (pagedProvider [repeat g0 n] []), lgs, (stopMarker batch lgs page None).
      split; [exact Hr |].
      unfold Slice.len. rewrite Hel. unfold items. simpl.
      rewrite app_nil_r, repeat_length. unfold n. lia.
Qed.

(** ** Normalization and the poll drivers *)

Section Polling.

Variable batch : Z.
Variable DateTime : Type.
Variable UnixTimeToDateTime : Z -> DateTime.
Variable schema : string.
Variable integrationType : string.
Variable getClient :
  awsmodels.ResourcePollerInput.t -> string -> string -> response CloudWatchLogsAPI.

Notation "'build'" :=
  (buildCloudWatchLogsLogGroupSnapshot UnixTimeToDateTime schema).
Notation "'pollRange'" :=
  (PollCloudWatchLogsLogGroups_range UnixTimeToDateTime schema integrationType).
Notation "'pollAll'" :=
  (PollCloudWatchLogsLogGroups batch UnixTimeToDateTime schema integrationType getClient).
Notation "'pollOne'" :=
  (PollCloudWatchLogsLogGroup UnixTimeToDateTime schema getClient).

Lemma build_tags_fail svc logGroup ct e :
  CreationTime logGroup = Some ct ->
  ListTagsLogGroup svc (LogGroupName logGroup) = Err e ->
  build svc logGroup = Return (None, Some (Wrap e "CloudWatchLogs ListTagsLogGroup")).
Proof.
  intros Hct Htags. unfold buildCloudWatchLogsLogGroupSnapshot, listTagsLogGroup.
  rewrite Hct, Htags. reflexivity.
Qed.

Lemma build_ok svc logGroup ct tags :
  CreationTime logGroup = Some ct ->
  ListTagsLogGroup svc (LogGroupName logGroup) = Ok tags ->
  exists snapshot,
    build svc logGroup = Return (Some snapshot, None)
    /\ awsmodels.TimeCreated (awsmodels.Generic snapshot)
       = UnixTimeToDateTime (int64_div ct 1000)
    /\ awsmodels.ResourceID (awsmodels.Generic snapshot) = Arn logGroup
    /\ awsmodels.Name (awsmodels.GenericAWS snapshot) = LogGroupName logGroup
    /\ awsmodels.Tags (awsmodels.GenericAWS snapshot) = tags.
Proof.
  intros Hct Htags. unfold buildCloudWatchLogsLogGroupSnapshot, listTagsLogGroup.
  rewrite Hct, Htags. simpl. eexists. split; [reflexivity |]. simpl.
  repeat split.
Qed.

Lemma build_total svc logGroup ct :
  CreationTime logGroup = Some ct ->
  (exists e, ListTagsLogGroup svc (LogGroupName logGroup) = Err e
             /\ build svc logGroup
                = Return (None, Some (Wrap e "CloudWatchLogs ListTagsLogGroup")))
  \/ (exists tags snapshot,
        ListTagsLogGroup svc (LogGroupName logGroup) = Ok tags
        /\ build svc logGroup = Return (Some snapshot, None)
        /\ awsmodels.ResourceID (awsmodels.Generic snapshot) = Arn logGroup).
Proof.
  intros Hct. destruct (ListTagsLogGroup svc (LogGroupName logGroup)) as [tags | e] eqn:Ht.
  - right. destruct (build_ok svc logGroup ct tags Hct Ht) as (sn & Hb & _ & Hid & _).
    exists tags, sn. repeat split; assumption.
  - left. exists e. split; [reflexivity |]. now apply build_tags_fail with (ct := ct).
Qed.

(** The loop stops at the first group whose tags cannot be fetched. *)
Lemma pollRange_tags_fail svc pollerInput integrationID g post ct e :
  awsmodels.ResourcePollerInput.IntegrationID pollerInput = Some integrationID ->
  CreationTime g = Some ct ->
  ListTagsLogGroup svc (LogGroupName g) = Err e ->
  forall pre resources,
    Forall (fun x => CreationTime x <> None /\ Arn x <> None) pre ->
    exists e',
      pollRange svc pollerInput (pre ++ g :: post) resources
      = Return (Err (Wrap e' "CloudWatchLogs ListTagsLogGroup"))
      /\ (Forall (fun x => exists tags,
                    ListTagsLogGroup svc (LogGroupName x) = Ok tags) pre ->
          e' = e).
Proof.
  intros Hid Hct Htags. induction pre as [|x pre IH]; intros resources Hpre.
  - exists e. split; [| reflexivity]. simpl.
    rewrite (build_tags_fail svc g ct e Hct Htags). reflexivity.
  - inversion Hpre as [|? ? [Hx Ha] Hrest]; subst.
    destruct (CreationTime x) as [cx|] eqn:Hcx; [| congruence].
    destruct (Arn x) as [ax|] eqn:Hax; [| congruence].
    destruct (build_total svc x cx Hcx) as [(ex & Hte & Hb) | (tags & sn & Hto & Hb & Hrid)].
    + exists ex. split.
      * simpl. rewrite Hb. reflexivity.
      * intros Hall. inversion Hall as [|? ? [t Ht] _]; subst. congruence.
    + simpl. rewrite Hb. simpl. rewrite Hrid, Hax, Hid. simpl.
      destruct (IH (Slice.append resources
                      [{| apimodels.Attributes :=
                            setRegionAccount sn
                              (awsmodels.ResourcePollerInput.Region pollerInput)
                              (Some (arn.AccountID
                                       (awsmodels.ResourcePollerInput.AuthSourceParsedARN
                                          pollerInput)));
                          apimodels.ID := ax;
                          apimodels.IntegrationID := integrationID;
                          apimodels.IntegrationType := integrationType;
                          apimodels.Type_ := schema |}]) Hrest)
        as [e' [Hrun Heq]].
      exists e'. split; [exact Hrun |].
      intros Hall. apply Heq. now inversion Hall.
Qed.

(** C4. When the list call has succeeded and, during normalization, the
    tag fetch fails for a group [g] of the batch (the groups before [g]
    carrying the fields the loop dereferences), [PollCloudWatchLogsLogGroups]
    returns the wrapped tag-fetch error with a nil batch and a nil token:
    neither the groups normalized before [g] nor those after it are
    returned.  The error is that of [g] when every earlier tag fetch
    succeeded. *)
Theorem tag_failure_returns_no_batch (fuel : nat)
    (pollerInput : awsmodels.ResourcePollerInput.t)
    (region integrationID : string) (svc : CloudWatchLogsAPI)
    (logGroups : Slice.t LogGroup) (marker : option string)
    (pre post : list LogGroup) (g : LogGroup) (ct : Z) (e : error) :
  awsmodels.ResourcePollerInput.Region pollerInput = Some region ->
  awsmodels.ResourcePollerInput.IntegrationID pollerInput = Some integrationID ->
  getClient pollerInput "cloudwatchlogs" region = Ok svc ->
  describeLogGroups batch fuel svc
    (awsmodels.ResourcePollerInput.NextPageToken pollerInput)
  = Return (logGroups, marker, None) ->
  Slice.elems logGroups = pre ++ g :: post ->
  Forall (fun x => CreationTime x <> None /\ Arn x <> None) pre ->
  CreationTime g = Some ct ->
  ListTagsLogGroup svc (LogGroupName g) = Err e ->
  exists e',
    pollAll fuel pollerInput
    = Return (None, None, Some (Wrap e' "CloudWatchLogs ListTagsLogGroup"))
    /\ (Forall (fun x => exists tags,
                  ListTagsLogGroup svc (LogGroupName x) = Ok tags) pre ->
        e' = e).
Proof.
  intros Hregion Hid Hclient Hlist Hsplit Hpre Hct Htags.
  destruct (pollRange_tags_fail svc pollerInput integrationID g post ct e
              Hid Hct Htags pre (Slice.make (Entry DateTime)) Hpre)
    as [e' [Hrun Heq]].
  exists e'. split; [| exact Heq].
  unfold PollCloudWatchLogsLogGroups, getCloudWatchLogsClient.
  rewrite Hregion. simpl. rewrite Hclient, Hlist. simpl.
  rewrite Hsplit, Hrun. reflexivity.
Qed.

(** C8. When the provider has answered the pages [front], none of which
    stopped the enumeration, and the next page request fails with [e],
    [describeLogGroups] returns nil items and a nil token with the wrapped
    error, and [PollCloudWatchLogsLogGroups] returns that error with a nil
    batch and a nil token.  In every run, an error of [describeLogGroups]
    comes with nil items and a nil token. *)
Theorem provider_failure_returns_nothing (fuel : nat)
    (pollerInput : awsmodels.ResourcePollerInput.t) (region : string)
    (svc : CloudWatchLogsAPI) (front : list DescribeLogGroupsOutput)
    (token' : option string) (e : error) :
  awsmodels.ResourcePollerInput.Region pollerInput = Some region ->
  getClient pollerInput "cloudwatchlogs" region = Ok svc ->
  walk svc (awsmodels.ResourcePollerInput.NextPageToken pollerInput) front token' ->
  continues batch 0 front = true ->
  DescribeLogGroups svc (pageRequest token') = Err e ->
  (List.length front < fuel)%nat ->
  describeLogGroups batch fuel svc
    (awsmodels.ResourcePollerInput.NextPageToken pollerInput)
  = Return (None, None, Some (Wrap e "CloudWatchLogs.DescribeLogGroups"))
  /\ pollAll fuel pollerInput
     = Return (None, None, Some (Wrap e "CloudWatchLogs.DescribeLogGroups"))
  /\ (forall fuel' nextMarker logGroups marker err,
        describeLogGroups batch fuel' svc nextMarker
        = Return (logGroups, marker, Some err) ->
        logGroups = None /\ marker = None).
Proof.
  intros Hregion Hclient Hwalk Hcont Hfail Hfuel.
  assert (Hlist := describeLogGroups_error batch svc _ front token' e fuel
                     Hwalk Hfail Hcont Hfuel).
  split; [exact Hlist |]. split.
  - unfold PollCloudWatchLogsLogGroups, getCloudWatchLogsClient.
    rewrite Hregion. simpl. rewrite Hclient, Hlist. reflexivity.
  - intros fuel' nextMarker logGroups marker err.
    apply describeLogGroups_error_nil.
Qed.

(** C6. The snapshot's creation time is the conversion of the group's
    millisecond [CreationTime] divided by 1000 and truncated toward zero:
    the quotient times 1000 is no further from zero than the raw value and
    less than 1000 away from it.  A raw 1583020800123 is converted as
    1583020800 seconds, which, for a conversion that keeps distinct seconds
    distinct, is neither 1583020800123 nor 1583020801. *)
Theorem snapshot_creation_seconds (svc : CloudWatchLogsAPI) (logGroup : LogGroup)
    (ct : Z) (tags : Tags) :
  CreationTime logGroup = Some ct ->
  in_int64 ct ->
  ListTagsLogGroup svc (LogGroupName logGroup) = Ok tags ->
  exists snapshot,
    build svc logGroup = Return (Some snapshot, None)
    /\ awsmodels.TimeCreated (awsmodels.Generic snapshot)
       = UnixTimeToDateTime (Z.quot ct 1000)
    /\ (Z.abs (1000 * Z.quot ct 1000) <= Z.abs ct < Z.abs (1000 * Z.quot ct 1000) + 1000)%Z
    /\ (ct = 1583020800123%Z ->
        awsmodels.TimeCreated (awsmodels.Generic snapshot)
        = UnixTimeToDateTime 1583020800
        /\ ((forall a b, UnixTimeToDateTime a = UnixTimeToDateTime b -> a = b) ->
            awsmodels.TimeCreated (awsmodels.Generic snapshot)
            <> UnixTimeToDateTime 1583020800123
            /\ awsmodels.TimeCreated (awsmodels.Generic snapshot)
               <> UnixTimeToDateTime 1583020801)).
Proof.
  intros Hct Hrange Htags.
  destruct (build_ok svc logGroup ct tags Hct Htags) as (sn & Hb & Htime & _).
  rewrite (int64_div_1000 ct Hrange) in Htime.
  exists sn. split; [exact Hb |]. split; [exact Htime |]. split.
  - assert (Hq := Z.quot_rem' ct 1000).
    destruct (Z.le_gt_cases 0 ct) as [Hpos | Hneg].
    + assert (Hr := Z.rem_bound_pos ct 1000 Hpos ltac:(lia)).
      assert (0 <= Z.quot ct 1000)%Z by (apply Z.quot_pos; lia). lia.
    + assert (Hr := Z.rem_bound_pos_neg ct 1000 ltac:(lia) ltac:(lia)).
      assert (Z.quot ct 1000 <= 0)%Z.
      { rewrite <- (Z.opp_involutive ct), Z.quot_opp_l by lia.
        assert (0 <= Z.quot (- ct) 1000)%Z by (apply Z.quot_pos; lia). lia. }
      lia.
  - intros Hraw. subst ct. rewrite Htime.
    change (Z.quot 1583020800123 1000) with 1583020800%Z.
    split; [reflexivity |].
    intros Hinj. split; intros Heq; apply Hinj in Heq; discriminate.
Qed.

(** C5. When the client is obtained, the describe lookup for the name in
    the ARN succeeds and every group it returns has a name other than the
    requested one, [PollCloudWatchLogsLogGroup] returns a nil resource and a
    nil error, and leaves the scan request as it was. *)
Theorem vanished_group_is_not_an_error
    (pollerResourceInput : awsmodels.ResourcePollerInput.t)
    (resourceARN : arn.ARN) (scanRequest : pollermodels.ScanEntry)
    (svc : CloudWatchLogsAPI) (lgName : string) (found : DescribeLogGroupsOutput) :
  getClient pollerResourceInput "cloudwatchlogs" (arn.Region resourceARN) = Ok svc ->
  lgName = hd EmptyString
             (Split (TrimPrefix (arn.Resource resourceARN) "log-group:") ":"%char) ->
  DescribeLogGroups svc
    {| LogGroupNamePrefix := Some lgName; InputNextToken := None |} = Ok found ->
  Forall (fun g => exists name, LogGroupName g = Some name /\ name <> lgName)
         (LogGroups found) ->
  pollOne pollerResourceInput resourceARN scanRequest
  = Return (None, None, scanRequest).
Proof.
  intros Hclient Hname Hquery Hnone.
  unfold PollCloudWatchLogsLogGroup, getCloudWatchLogsClient. rewrite Hclient.
  destruct (Split (TrimPrefix (arn.Resource resourceARN) "log-group:") ":"%char)
    as [|w ws] eqn:Hsplit.
  - exfalso. exact (Split_not_nil _ _ Hsplit).
  - simpl in Hname. subst w. simpl. unfold getLogGroup. rewrite Hquery.
    assert (Hrange : getLogGroup_range (LogGroups found) lgName = Return None).
    { induction Hnone as [|g rest [name [Hg Hne]] _ IH]; [reflexivity |].
      simpl. rewrite Hg. simpl.
      apply String.eqb_neq in Hne. rewrite Hne. exact IH. }
    rewrite Hrange. reflexivity.
Qed.

End Polling.

(** ** Exact-name lookup *)

Lemma getLogGroup_range_found logGroups logGroupName logGroup :
  getLogGroup_range logGroups logGroupName = Return (Some logGroup) ->
  In logGroup logGroups /\ LogGroupName logGroup = Some logGroupName.
Proof.
  induction logGroups as [|g rest IH]; simpl; [discriminate |].
  destruct (LogGroupName g) as [name|] eqn:Hname; simpl; [| discriminate].
  destruct (String.eqb name logGroupName) eqn:Heq.
  - intros H. injection H as H. subst g. apply String.eqb_eq in Heq. subst name.
    split; [now left | exact Hname].
  - intros H. destruct (IH H) as [Hin Hn]. split; [now right | exact Hn].
Qed.

Lemma getLogGroup_range_none logGroups logGroupName :
  Forall (fun g => exists name, LogGroupName g = Some name /\ name <> logGroupName)
         logGroups ->
  getLogGroup_range logGroups logGroupName = Return None.
Proof.
  induction 1 as [|g rest [name [Hg Hne]] _ IH]; [reflexivity |].
  simpl. rewrite Hg. simpl. apply String.eqb_neq in Hne. rewrite Hne. exact IH.
Qed.

(** C10. [getLogGroup] returns a group only if the prefix query succeeded,
    the group is among those the query returned and its name equals the
    requested name; no error accompanies it.  When the query succeeds and
    every group it returns has a name other than the requested one,
    [getLogGroup] returns (nil, nil), whatever prefix matches the query
    produced. *)
Theorem getLogGroup_exact_name (svc : CloudWatchLogsAPI) (logGroupName : string) :
  (forall logGroup err,
      getLogGroup svc logGroupName = Return (Some logGroup, err) ->
      err = None
      /\ LogGroupName logGroup = Some logGroupName
      /\ exists found,
           DescribeLogGroups svc
             {| LogGroupNamePrefix := Some logGroupName; InputNextToken := None |}
           = Ok found
           /\ In logGroup (LogGroups found))
  /\ (forall found,
        DescribeLogGroups svc
          {| LogGroupNamePrefix := Some logGroupName; InputNextToken := None |}
        = Ok found ->
        Forall (fun g => exists name, LogGroupName g = Some name /\ name <> logGroupName)
               (LogGroups found) ->
        getLogGroup svc logGroupName = Return (None, None)).
Proof.
  split.
  - intros logGroup err. unfold getLogGroup.
    destruct (DescribeLogGroups svc _) as [found | e] eqn:Hquery; [| discriminate].
    destruct (getLogGroup_range (LogGroups found) logGroupName)
      as [[g|] | |] eqn:Hrange; simpl; try discriminate.
    intros H. injection H as Hg He. subst g err.
    destruct (getLogGroup_range_found _ _ _ Hrange) as [Hin Hname].
    split; [reflexivity |]. split; [exact Hname |].
    exists found. now split.
  - intros found Hquery Hnone. unfold getLogGroup. rewrite Hquery.
    rewrite (getLogGroup_range_none _ _ Hnone). reflexivity.
Qed.

(** C1. When the provider holds a finite sequence of pages, the chain of
    calls of [describeLogGroups], each resumed from the token the one before
    returned until no token comes back, terminates and returns batches
    whose concatenation is the list that one call with a ceiling above the
    number of items returns: the same items, in the same order and with the
    same multiplicities, so none is duplicated and none is skipped. *)
Theorem chained_resumption_enumerates_all (batch big : Z) (svc : CloudWatchLogsAPI)
    (token : option string) (pages : list DescribeLogGroupsOutput)
    (rounds fuel : nat) :
  serves svc token pages ->
  (Z.of_nat (List.length (items pages)) < big)%Z ->
  (List.length pages <= rounds)%nat ->
  (List.length pages <= fuel)%nat ->
  exists batches all,
    resumeChain batch rounds fuel svc token = Return (batches, None)
    /\ describeLogGroups big fuel svc token = Return (all, None, None)
    /\ Slice.elems all = items pages
    /\ List.concat (map (@Slice.elems LogGroup) batches) = Slice.elems all
    /\ Permutation (List.concat (map (@Slice.elems LogGroup) batches)) (Slice.elems all)
    /\ (forall g, In g (List.concat (map (@Slice.elems LogGroup) batches))
                  <-> In g (Slice.elems all)).
Proof.
  intros Hserves Hbig Hrounds Hfuel.
  destruct (resumeChain_complete batch svc (List.length pages) pages token rounds fuel
              (Nat.le_refl _) Hserves Hrounds Hfuel) as [batches [Hchain Hcat]].
  destruct (describeLogGroups_unbounded big svc token pages fuel Hserves Hbig Hfuel)
    as [all [Hone Hel]].
  exists batches, all.
  split; [exact Hchain |]. split; [exact Hone |]. split; [exact Hel |].
  rewrite Hcat, Hel. split; [reflexivity |]. split; [apply Permutation_refl |].
  intros g. reflexivity.
Qed.

(** ** The provider of a fixed sequence of pages *)

Lemma length_tokenOf n : String.length (tokenOf n) = S n.
Proof.
  induction n as [|n IH]; simpl; [reflexivity | now rewrite IH].
Qed.

Lemma pageIndex_pageToken i : pageIndex (pageToken i) = i.
Proof.
  destruct i as [|i]; [reflexivity |].
  unfold pageToken, pageIndex. rewrite length_tokenOf. lia.
Qed.

Lemma pagedProvider_request pages tags i :
  (i < List.length pages)%nat ->
  DescribeLogGroups (pagedProvider pages tags) (pageRequest (pageToken i))
  = Ok (pageOutput pages i).
Proof.
  intros Hi. simpl. rewrite pageIndex_pageToken.
  rewrite (nth_error_nth' pages [] Hi). reflexivity.
Qed.

Lemma pageOutput_next pages i :
  (S i < List.length pages)%nat ->
  hasNextPage (pageOutput pages i) = true
  /\ NextToken (pageOutput pages i) = pageToken (S i).
Proof.
  intros Hi. unfold hasNextPage, pageOutput. simpl.
  apply Nat.ltb_lt in Hi. rewrite Hi. split; reflexivity.
Qed.

Lemma pagedProvider_walk pages tags :
  forall k i,
    (i + k < List.length pages)%nat ->
    walk (pagedProvider pages tags) (pageToken i)
         (map (pageOutput pages) (seq i k)) (pageToken (i + k)).
Proof.
  induction k as [|k IH]; intros i Hik.
  - rewrite Nat.add_0_r. apply walk_nil.
  - simpl. destruct (pageOutput_next pages i) as [Hnext Htok]; [lia |].
    apply walk_cons.
    + apply pagedProvider_request. lia.
    + exact Hnext.
    + rewrite Htok. replace (i + S k)%nat with (S i + k)%nat by lia.
      apply IH. lia.
Qed.

(** Every non-empty sequence of pages is what its provider serves. *)
Lemma pagedProvider_serves pages tags :
  pages <> [] ->
  serves (pagedProvider pages tags) None (pageOutputs pages).
Proof.
  intros Hne. unfold pageOutputs.
  destruct (List.length pages) as [|n] eqn:Hlen.
  - destruct pages; [congruence | discriminate].
  - exists (map (pageOutput pages) (seq 0 n)), (pageOutput pages n), (pageToken n).
    split; [| split; [| split]].
    + rewrite seq_S, map_app. reflexivity.
    + apply (pagedProvider_walk pages tags n 0). lia.
    + apply pagedProvider_request. lia.
    + unfold hasNextPage, pageOutput. simpl. rewrite Hlen, Nat.ltb_irrefl. reflexivity.
Qed.

Lemma items_pageOutputs pages : items (pageOutputs pages) = List.concat pages.
Proof.
  unfold items, pageOutputs. rewrite map_map. f_equal.
  apply nth_ext with (d := []) (d' := []).
  - now rewrite length_map, length_seq.
  - intros n Hn. rewrite length_map, length_seq in Hn.
    rewrite (nth_indep _ [] (LogGroups (pageOutput pages 0)))
      by now rewrite length_map, length_seq.
    rewrite (map_nth (fun i => LogGroups (pageOutput pages i))).
    rewrite seq_nth by exact Hn. reflexivity.
Qed.

(** A poll of the first batch on the success path: three entries, in
    provider order, and the token of the second page. *)
Example poll_first_batch :
  exists resources,
    PollCloudWatchLogsLogGroups 2 secondsOf "AWS.CloudWatch.LogGroup" "aws"
      (clientOf twoPages) 3 sampleInput
    = Return (Some resources, Some "it"%string, None)
    /\ map (fun r => awsmodels.Name (awsmodels.GenericAWS (apimodels.Attributes r)))
           resources
       = [Some "app"%string; Some "app-prod"%string; Some "app-test"%string]
    /\ map (fun r => awsmodels.TimeCreated (awsmodels.Generic (apimodels.Attributes r)))
           resources
       = [1583020800; 1583020800; 1583020800]%Z.
Proof.
  eexists. split; [vm_compute; reflexivity |]. split; reflexivity.
Qed.

(** The example of the specification: 250 groups in pages of 50 under a
    ceiling of 100 come back as batches of 100, 100 and 50, the last one
    without a token. *)
Example resumeChain_250_by_100 :
  exists batches,
    resumeChain 100 5 5 (pagedProvider fivePages []) None = Return (batches, None)
    /\ map (@Slice.len LogGroup) batches = [100; 100; 50]%Z
    /\ List.concat (map (@Slice.elems LogGroup) batches) = List.concat fivePages.
Proof.
  eexists. split; [vm_compute; reflexivity |]. split; vm_compute; reflexivity.
Qed.

(** ** The theorems at concrete inputs *)

Local Open Scope string_scope.
Local Open Scope Z_scope.

Lemma chained_resumption_enumerates_all_witness :
  serves twoPages None (pageOutputs [[g0; g1; g2]; [g3]])
  /\ exists batches all,
       resumeChain 2 2 2 twoPages None = Return (batches, None)
       /\ describeLogGroups 100 2 twoPages None = Return (all, None, None)
       /\ Slice.elems all = items (pageOutputs [[g0; g1; g2]; [g3]])
       /\ List.concat (map (@Slice.elems LogGroup) batches) = Slice.elems all
       /\ Permutation (List.concat (map (@Slice.elems LogGroup) batches))
                      (Slice.elems all)
       /\ (forall g, In g (List.concat (map (@Slice.elems LogGroup) batches))
                     <-> In g (Slice.elems all)).
Proof.
  assert (Hserves : serves twoPages None (pageOutputs [[g0; g1; g2]; [g3]])).
  { apply pagedProvider_serves. discriminate. }
  split; [exact Hserves |].
  apply (chained_resumption_enumerates_all 2 100 twoPages None
           (pageOutputs [[g0; g1; g2]; [g3]]) 2 2 Hserves).
  - vm_compute. reflexivity.
  - simpl. lia.
  - simpl. lia.
Defined.

Lemma describeLogGroups_token_witness :
  serves twoPages None (pageOutputs [[g0; g1; g2]; [g3]])
  /\ describeLogGroups 2 3 twoPages None = Return (Some [g0; g1; g2], Some "it", None)
  /\ (exists front last token',
        walk twoPages None front token'
        /\ DescribeLogGroups twoPages (pageRequest token') = Ok last
        /\ Slice.elems (Some [g0; g1; g2]) = items (front ++ [last])%list
        /\ ((exists t, Some "it" = Some t /\ t <> EmptyString)
            <-> Slice.len (Some [g0; g1; g2]) >= 2 /\ hasNextPage last = true)
        /\ (hasNextPage last = false -> Some "it" = None)
        /\ (Slice.len (Some [g0; g1; g2]) >= 2 -> hasNextPage last = true ->
            Some "it" = NextToken last))
  /\ (exists taken last rest logGroups marker,
        pageOutputs [[g0; g1; g2]; [g3]] = (taken ++ last :: rest)%list
        /\ describeLogGroups 2 3 twoPages None = Return (logGroups, marker, None)
        /\ Slice.elems logGroups = items (taken ++ [last])%list
        /\ ((rest = [] /\ marker = None)
            \/ (rest <> [] /\ Slice.len logGroups >= 2
                /\ marker = NextToken last
                /\ exists t, marker = Some t /\ t <> EmptyString))).
Proof.
  assert (Hserves : serves twoPages None (pageOutputs [[g0; g1; g2]; [g3]])).
  { apply pagedProvider_serves. discriminate. }
  split; [exact Hserves |]. split; [reflexivity |]. split.
  - apply (proj1 (describeLogGroups_token 2 twoPages None) 3%nat
             (Some [g0; g1; g2]) (Some "it")).
    reflexivity.
  - apply (proj2 (describeLogGroups_token 2 twoPages None)
             (pageOutputs [[g0; g1; g2]; [g3]]) 3%nat Hserves).
    simpl. lia.
Defined.

Lemma describeLogGroups_whole_pages_witness :
  serves twoPages None (pageOutputs [[g0; g1; g2]; [g3]])
  /\ describeLogGroups 2 3 twoPages None = Return (Some [g0; g1; g2], Some "it", None)
  /\ (exists taken last rest logGroups marker,
        pageOutputs [[g0; g1; g2]; [g3]] = (taken ++ last :: rest)%list
        /\ describeLogGroups 2 3 twoPages None = Return (logGroups, marker, None)
        /\ Slice.elems logGroups = List.concat (map LogGroups (taken ++ [last])%list)
        /\ continues 2 0 taken = true
        /\ (rest = [] \/ Slice.len logGroups >= 2))
  /\ (exists front last token',
        walk twoPages None front token'
        /\ DescribeLogGroups twoPages (pageRequest token') = Ok last
        /\ Slice.elems (Some [g0; g1; g2])
           = List.concat (map LogGroups (front ++ [last])%list)
        /\ continues 2 0 front = true
        /\ (Slice.len (Some [g0; g1; g2]) >= 2 \/ hasNextPage last = false)
        /\ (0 < 2 -> Slice.len (Some [g0; g1; g2]) - pageSize last < 2))
  /\ (exists svc logGroups marker,
        describeLogGroups 2 1 svc None = Return (logGroups, marker, None)
        /\ Slice.len logGroups > 2).
Proof.
  assert (Hserves : serves twoPages None (pageOutputs [[g0; g1; g2]; [g3]])).
  { apply pagedProvider_serves. discriminate. }
  split; [exact Hserves |]. split; [reflexivity |].
  destruct (describeLogGroups_whole_pages 2) as (Hforward & Hrun & Hover).
  split; [| split].
  - apply (Hforward twoPages None (pageOutputs [[g0; g1; g2]; [g3]]) 3%nat Hserves).
    simpl. lia.
  - apply (Hrun 3%nat twoPages None (Some [g0; g1; g2]) (Some "it")). reflexivity.
  - exact Hover.
Defined.

Lemma tag_failure_returns_no_batch_witness :
  describeLogGroups 100 1 tagsDeniedProvider None = Return (Some [g0; g1; g2], None, None)
  /\ ListTagsLogGroup tagsDeniedProvider (LogGroupName g1)
     = Err (ProviderError "AccessDeniedException")
  /\ exists e',
       PollCloudWatchLogsLogGroups 100 secondsOf "AWS.CloudWatch.LogGroup" "aws"
         (clientOf tagsDeniedProvider) 1 sampleInput
       = Return (None, None, Some (Wrap e' "CloudWatchLogs ListTagsLogGroup"))
       /\ (Forall (fun x => exists tags,
                     ListTagsLogGroup tagsDeniedProvider (LogGroupName x) = Ok tags)
                  [g0] ->
           e' = ProviderError "AccessDeniedException").
Proof.
  split; [reflexivity |]. split; [reflexivity |].
  apply (tag_failure_returns_no_batch 100 Z secondsOf "AWS.CloudWatch.LogGroup" "aws"
           (clientOf tagsDeniedProvider) 1 sampleInput "us-west-2"
           "189cddfa-6fd5-419e-8b0e-668105b67dc0" tagsDeniedProvider
           (Some [g0; g1; g2]) None [g0] [g2] g1 1583020800123
           (ProviderError "AccessDeniedException")); try reflexivity.
  constructor; [| constructor]. split; discriminate.
Defined.

Lemma provider_failure_returns_nothing_witness :
  DescribeLogGroups throttledProvider (pageRequest (Some "next"%string))
  = Err (ProviderError "ThrottlingException")
  /\ describeLogGroups 100 2 throttledProvider None
     = Return (None, None,
               Some (Wrap (ProviderError "ThrottlingException")
                          "CloudWatchLogs.DescribeLogGroups"))
  /\ PollCloudWatchLogsLogGroups 100 secondsOf "AWS.CloudWatch.LogGroup" "aws"
       (clientOf throttledProvider) 2 sampleInput
     = Return (None, None,
               Some (Wrap (ProviderError "ThrottlingException")
                          "CloudWatchLogs.DescribeLogGroups"))
  /\ (forall fuel' nextMarker logGroups marker err,
        describeLogGroups 100 fuel' throttledProvider nextMarker
        = Return (logGroups, marker, Some err) ->
        logGroups = None /\ marker = None).
Proof.
  split; [reflexivity |].
  apply (provider_failure_returns_nothing 100 Z secondsOf "AWS.CloudWatch.LogGroup" "aws"
           (clientOf throttledProvider) 2 sampleInput "us-west-2" throttledProvider
           [{| LogGroups := [g0; g1]; NextToken := Some "next"%string |}]
           (Some "next"%string) (ProviderError "ThrottlingException"));
    try reflexivity.
  - apply walk_cons; [reflexivity | reflexivity | apply walk_nil].
  - simpl. lia.
Defined.

Lemma snapshot_creation_seconds_witness :
  in_int64 1583020800123
  /\ exists snapshot,
       buildCloudWatchLogsLogGroupSnapshot secondsOf "AWS.CloudWatch.LogGroup" twoPages g0
       = Return (Some snapshot, None)
       /\ awsmodels.TimeCreated (awsmodels.Generic snapshot)
          = secondsOf (Z.quot 1583020800123 1000)
       /\ (Z.abs (1000 * Z.quot 1583020800123 1000) <= Z.abs 1583020800123
           < Z.abs (1000 * Z.quot 1583020800123 1000) + 1000)%Z
       /\ (1583020800123%Z = 1583020800123%Z ->
           awsmodels.TimeCreated (awsmodels.Generic snapshot) = secondsOf 1583020800
           /\ ((forall a b, secondsOf a = secondsOf b -> a = b) ->
               awsmodels.TimeCreated (awsmodels.Generic snapshot)
               <> secondsOf 1583020800123
               /\ awsmodels.TimeCreated (awsmodels.Generic snapshot)
                  <> secondsOf 1583020801)).
Proof.
  assert (Hrange : in_int64 1583020800123).
  { unfold in_int64, int64_min, int64_max. lia. }
  split; [exact Hrange |].
  apply (snapshot_creation_seconds Z secondsOf "AWS.CloudWatch.LogGroup" twoPages g0
           1583020800123 [("team"%string, Some "security"%string)]
           eq_refl Hrange eq_refl).
Defined.

Lemma vanished_group_is_not_an_error_witness :
  DescribeLogGroups (prefixProvider [g0; g1; g2; g3])
    {| LogGroupNamePrefix := Some "app-pro"%string; InputNextToken := None |}
  = Ok {| LogGroups := [g1]; NextToken := None |}
  /\ PollCloudWatchLogsLogGroup secondsOf "AWS.CloudWatch.LogGroup"
       (clientOf (prefixProvider [g0; g1; g2; g3])) sampleInput vanishedARN sampleScan
     = Return (None, None, sampleScan).
Proof.
  split; [reflexivity |].
  apply (vanished_group_is_not_an_error Z secondsOf "AWS.CloudWatch.LogGroup"
           (clientOf (prefixProvider [g0; g1; g2; g3])) sampleInput vanishedARN
           sampleScan (prefixProvider [g0; g1; g2; g3]) "app-pro"%string
           {| LogGroups := [g1]; NextToken := None |}); try reflexivity.
  constructor; [| constructor].
  exists "app-prod"%string. split; [reflexivity | discriminate].
Defined.

Lemma getLogGroup_exact_name_witness :
  DescribeLogGroups (prefixProvider [g0; g1; g2; g3])
    {| LogGroupNamePrefix := Some "app-"%string; InputNextToken := None |}
  = Ok {| LogGroups := [g1; g2]; NextToken := None |}
  /\ getLogGroup (prefixProvider [g0; g1; g2; g3]) "app-" = Return (None, None)
  /\ getLogGroup (prefixProvider [g0; g1; g2; g3]) "app" = Return (Some g0, None)
  /\ LogGroupName g0 = Some "app"%string.
Proof.
  split; [reflexivity |]. split.
  - apply (proj2 (getLogGroup_exact_name (prefixProvider [g0; g1; g2; g3]) "app-")
             {| LogGroups := [g1; g2]; NextToken := None |}); [reflexivity |].
    constructor; [| constructor; [| constructor]].
    + exists "app-prod"%string. split; [reflexivity | discriminate].
    + exists "app-test"%string. split; [reflexivity | discriminate].
  - split; [reflexivity |].
    apply (proj1 (getLogGroup_exact_name (prefixProvider [g0; g1; g2; g3]) "app")
             g0 None).
    reflexivity.
Defined.

(** * Further properties of the poller *)

Local Close Scope Z_scope.
Local Close Scope string_scope.

(** ** The name looked up for an ARN *)

Lemma prefix_append (p s : string) : String.prefix p (String.append p s) = true.
Proof.
  induction p as [|c p IH]; simpl; [now destruct s |].
  destruct (ascii_dec c c) as [_ | Hne]; [exact IH | congruence].
Qed.

Lemma substring_append_right (p s : string) :
  substring (String.length p) (String.length (String.append p s) - String.length p)
            (String.append p s) = s.
Proof.
  induction p as [|c p IH]; simpl.
  - rewrite Nat.sub_0_r. induction s as [|d s IHs]; simpl; [reflexivity |].
    now rewrite IHs.
  - exact IH.
Qed.

Lemma TrimPrefix_append (p s : string) : TrimPrefix (String.append p s) p = s.
Proof.
  unfold TrimPrefix, HasPrefix. rewrite prefix_append. apply substring_append_right.
Qed.


Lemma Split_first (s rest : string) (sep : ascii) :
  hasByte sep s = false ->
  Split (String.append s (String sep rest)) sep = s :: Split rest sep.
Proof.
  induction s as [|c s IH]; simpl.
  - intros _. now rewrite Ascii.eqb_refl.
  - intros H. apply orb_false_iff in H. destruct H as [Hc Hs].
    rewrite Hc, (IH Hs). reflexivity.
Qed.

Lemma resource_name name modifiers :
  hasByte ":"%char name = false ->
  index0 (Split (TrimPrefix
                   (String.append "log-group:"
                      (String.append name (String ":"%char modifiers)))
                   "log-group:") ":"%char)
  = Return name.
Proof.
  intros Hname. rewrite TrimPrefix_append.
  rewrite (Split_first name modifiers ":"%char Hname). reflexivity.
Qed.



(** ** Lookup by exact name *)

Lemma getLogGroup_range_first pre g post logGroupName :
  Forall (fun x => exists name, LogGroupName x = Some name /\ name <> logGroupName) pre ->
  LogGroupName g = Some logGroupName ->
  getLogGroup_range (pre ++ g :: post) logGroupName = Return (Some g).
Proof.
  intros Hpre Hg. induction Hpre as [|x pre [name [Hx Hne]] _ IH]; simpl.
  - rewrite Hg. simpl. now rewrite String.eqb_refl.
  - rewrite Hx. simpl. apply String.eqb_neq in Hne. rewrite Hne. exact IH.
Qed.

Lemma getLogGroup_found svc logGroupName found pre post g :
  DescribeLogGroups svc
    {| LogGroupNamePrefix := Some logGroupName; InputNextToken := None |} = Ok found ->
  LogGroups found = pre ++ g :: post ->
  Forall (fun x => exists name, LogGroupName x = Some name /\ name <> logGroupName) pre ->
  LogGroupName g = Some logGroupName ->
  getLogGroup svc logGroupName = Return (Some g, None).
Proof.
  intros Hquery Hsplit Hpre Hg. unfold getLogGroup. rewrite Hquery, Hsplit.
  rewrite (getLogGroup_range_first pre g post logGroupName Hpre Hg). reflexivity.
Qed.

(** [getLogGroup] returns the first group, in the order of the response,
    whose name is the requested one: prefix matches before it are skipped
    and later groups, even with the same name, are not considered. *)
Theorem getLogGroup_first_exact_match (svc : CloudWatchLogsAPI) (logGroupName : string)
    (found : DescribeLogGroupsOutput) (pre post : list LogGroup) (g : LogGroup) :
  DescribeLogGroups svc
    {| LogGroupNamePrefix := Some logGroupName; InputNextToken := None |} = Ok found ->
  LogGroups found = pre ++ g :: post ->
  Forall (fun x => exists name, LogGroupName x = Some name /\ name <> logGroupName) pre ->
  LogGroupName g = Some logGroupName ->
  getLogGroup svc logGroupName = Return (Some g, None).
Proof.
  exact (getLogGroup_found svc logGroupName found pre post g).
Qed.

Lemma getLogGroup_first_exact_match_witness :
  DescribeLogGroups (prefixProvider [g1; g0; g2; g1])
    {| LogGroupNamePrefix := Some "app"%string; InputNextToken := None |}
  = Ok {| LogGroups := [g1; g0; g2; g1]; NextToken := None |}
  /\ getLogGroup (prefixProvider [g1; g0; g2; g1]) "app" = Return (Some g0, None).
Proof.
  split; [reflexivity |].
  apply (getLogGroup_first_exact_match (prefixProvider [g1; g0; g2; g1]) "app"
           {| LogGroups := [g1; g0; g2; g1]; NextToken := None |} [g1] [g2; g1] g0);
    try reflexivity.
  constructor; [| constructor].
  exists "app-prod"%string. split; [reflexivity | discriminate].
Defined.

(** ** The poll drivers on every path *)

Section MorePolling.

Variable batch : Z.
Variable DateTime : Type.
Variable UnixTimeToDateTime : Z -> DateTime.
Variable schema : string.
Variable integrationType : string.
Variable getClient :
  awsmodels.ResourcePollerInput.t -> string -> string -> response CloudWatchLogsAPI.

Notation "'build'" :=
  (buildCloudWatchLogsLogGroupSnapshot UnixTimeToDateTime schema).
Notation "'pollRange'" :=
  (PollCloudWatchLogsLogGroups_range UnixTimeToDateTime schema integrationType).
Notation "'pollAll'" :=
  (PollCloudWatchLogsLogGroups batch UnixTimeToDateTime schema integrationType getClient).
Notation "'pollOne'" :=
  (PollCloudWatchLogsLogGroup UnixTimeToDateTime schema getClient).

Lemma build_returns svc logGroup snapshot err :
  build svc logGroup = Return (snapshot, err) ->
  (snapshot = None /\ err <> None)
  \/ (exists sn ct tags,
        snapshot = Some sn /\ err = None
        /\ CreationTime logGroup = Some ct
        /\ ListTagsLogGroup svc (LogGroupName logGroup) = Ok tags
        /\ awsmodels.Generic sn
           = {| awsmodels.ResourceID := Arn logGroup;
                awsmodels.ResourceType := Some schema;
                awsmodels.TimeCreated := UnixTimeToDateTime (int64_div ct 1000) |}
        /\ awsmodels.GenericAWS sn
           = {| awsmodels.AccountID := None;
                awsmodels.ARN := Arn logGroup;
                awsmodels.Name := LogGroupName logGroup;
                awsmodels.Region := None;
                awsmodels.Tags := tags |}
        /\ awsmodels.KmsKeyId sn = KmsKeyId logGroup
        /\ awsmodels.MetricFilterCount sn = MetricFilterCount logGroup
        /\ awsmodels.RetentionInDays sn = RetentionInDays logGroup
        /\ awsmodels.StoredBytes sn = StoredBytes logGroup).
Proof.
  unfold buildCloudWatchLogsLogGroupSnapshot, listTagsLogGroup.
  destruct (CreationTime logGroup) as [ct|]; simpl; [| discriminate].
  destruct (ListTagsLogGroup svc (LogGroupName logGroup)) as [tags | e]; intros H;
    injection H as Hs He; subst snapshot err.
  - right. eexists _, ct, tags. repeat split.
  - left. split; [reflexivity | discriminate].
Qed.

(** A found group with its tags: the snapshot carries the region and the
    account of the ARN, and the scan request learns the group's ARN. *)
Theorem poll_one_found (pollerResourceInput : awsmodels.ResourcePollerInput.t)
    (resourceARN : arn.ARN) (scanRequest : pollermodels.ScanEntry)
    (svc : CloudWatchLogsAPI) (name modifiers : string)
    (found : DescribeLogGroupsOutput) (pre post : list LogGroup) (g : LogGroup)
    (ct : Z) (tags : Tags) :
  getClient pollerResourceInput "cloudwatchlogs" (arn.Region resourceARN) = Ok svc ->
  arn.Resource resourceARN
  = String.append "log-group:" (String.append name (String ":"%char modifiers)) ->
  hasByte ":"%char name = false ->
  DescribeLogGroups svc {| LogGroupNamePrefix := Some name; InputNextToken := None |}
  = Ok found ->
  LogGroups found = pre ++ g :: post ->
  Forall (fun x => exists n, LogGroupName x = Some n /\ n <> name) pre ->
  LogGroupName g = Some name ->
  CreationTime g = Some ct ->
  ListTagsLogGroup svc (Some name) = Ok tags ->
  exists snapshot,
    pollOne pollerResourceInput resourceARN scanRequest
    = Return (Some snapshot, None, {| pollermodels.ResourceID := Arn g |})
    /\ awsmodels.Region (awsmodels.GenericAWS snapshot) = Some (arn.Region resourceARN)
    /\ awsmodels.AccountID (awsmodels.GenericAWS snapshot)
       = Some (arn.AccountID resourceARN)
    /\ awsmodels.Name (awsmodels.GenericAWS snapshot) = Some name
    /\ awsmodels.ARN (awsmodels.GenericAWS snapshot) = Arn g
    /\ awsmodels.Tags (awsmodels.GenericAWS snapshot) = tags
    /\ awsmodels.ResourceID (awsmodels.Generic snapshot) = Arn g
    /\ awsmodels.TimeCreated (awsmodels.Generic snapshot)
       = UnixTimeToDateTime (int64_div ct 1000).
Proof.
  intros Hclient Hres Hname Hquery Hsplit Hpre Hg Hct Htags.
  unfold PollCloudWatchLogsLogGroup, getCloudWatchLogsClient.
  rewrite Hclient, Hres.
  rewrite (resource_name name modifiers Hname). simpl bind.
  rewrite (getLogGroup_found svc name found pre post g
             Hquery Hsplit Hpre Hg). simpl bind.
  unfold buildCloudWatchLogsLogGroupSnapshot, listTagsLogGroup.
  rewrite Hct, Hg, Htags. simpl.
  eexists. split; [reflexivity |]. simpl. repeat split.
Qed.

(** A failing describe lookup is returned wrapped, with no resource, and
    the scan request keeps its value. *)
Theorem poll_one_lookup_error (pollerResourceInput : awsmodels.ResourcePollerInput.t)
    (resourceARN : arn.ARN) (scanRequest : pollermodels.ScanEntry)
    (svc : CloudWatchLogsAPI) (lgName : string) (e : error) :
  getClient pollerResourceInput "cloudwatchlogs" (arn.Region resourceARN) = Ok svc ->
  index0 (Split (TrimPrefix (arn.Resource resourceARN) "log-group:") ":"%char)
  = Return lgName ->
  DescribeLogGroups svc {| LogGroupNamePrefix := Some lgName; InputNextToken := None |}
  = Err e ->
  pollOne pollerResourceInput resourceARN scanRequest
  = Return (None, Some (Wrap e "CloudWatchLogs.DescribeLogGroups"), scanRequest).
Proof.
  intros Hclient Hname Hquery.
  unfold PollCloudWatchLogsLogGroup, getCloudWatchLogsClient.
  rewrite Hclient, Hname. simpl bind. unfold getLogGroup. rewrite Hquery. reflexivity.
Qed.

(** When the tags of the found group cannot be fetched, the error is
    returned wrapped, with no resource, and the scan request keeps its
    value. *)
Theorem poll_one_tag_failure (pollerResourceInput : awsmodels.ResourcePollerInput.t)
    (resourceARN : arn.ARN) (scanRequest : pollermodels.ScanEntry)
    (svc : CloudWatchLogsAPI) (lgName : string) (g : LogGroup) (ct : Z) (e : error) :
  getClient pollerResourceInput "cloudwatchlogs" (arn.Region resourceARN) = Ok svc ->
  index0 (Split (TrimPrefix (arn.Resource resourceARN) "log-group:") ":"%char)
  = Return lgName ->
  getLogGroup svc lgName = Return (Some g, None) ->
  CreationTime g = Some ct ->
  ListTagsLogGroup svc (LogGroupName g) = Err e ->
  pollOne pollerResourceInput resourceARN scanRequest
  = Return (None, Some (Wrap e "CloudWatchLogs ListTagsLogGroup"), scanRequest).
Proof.
  intros Hclient Hname Hget Hct Htags.
  unfold PollCloudWatchLogsLogGroup, getCloudWatchLogsClient.
  rewrite Hclient, Hname. simpl bind. rewrite Hget. simpl bind.
  unfold buildCloudWatchLogsLogGroupSnapshot, listTagsLogGroup.
  rewrite Hct, Htags. reflexivity.
Qed.

(** Whatever [PollCloudWatchLogsLogGroup] returns, it is either no resource
    with the scan request untouched, or a resource with a nil error, marked
    with the ARN's region and account, whose ARN is written to the scan
    request: a resource never comes with an error, and the scan request
    changes only together with a resource. *)
Theorem poll_one_outcomes (pollerResourceInput : awsmodels.ResourcePollerInput.t)
    (resourceARN : arn.ARN) (scanRequest scanRequest' : pollermodels.ScanEntry)
    (resource : option (Snapshot DateTime)) (err : option error) :
  pollOne pollerResourceInput resourceARN scanRequest
  = Return (resource, err, scanRequest') ->
  (resource = None /\ scanRequest' = scanRequest)
  \/ (exists snapshot,
        resource = Some snapshot /\ err = None
        /\ pollermodels.ResourceID scanRequest'
           = awsmodels.ARN (awsmodels.GenericAWS snapshot)
        /\ awsmodels.Region (awsmodels.GenericAWS snapshot)
           = Some (arn.Region resourceARN)
        /\ awsmodels.AccountID (awsmodels.GenericAWS snapshot)
           = Some (arn.AccountID resourceARN)).
Proof.
  unfold PollCloudWatchLogsLogGroup.
  destruct (getCloudWatchLogsClient getClient pollerResourceInput
              (arn.Region resourceARN)) as [svc | e].
  2: { intros H. injection H as Hr He Hs. subst. left. now split. }
  destruct (index0 (Split (TrimPrefix (arn.Resource resourceARN) "log-group:")
                          ":"%char)) as [lgName | |]; simpl bind; try discriminate.
  destruct (getLogGroup svc lgName) as [[[g|] [e|]] | |]; simpl bind;
    try discriminate;
    try (intros H; injection H as Hr He Hs; subst; left; now split).
  destruct (build svc g) as [[sn err'] | |] eqn:Hb; simpl bind; try discriminate.
  destruct (build_returns svc g sn err' Hb)
    as [[Hsn Herr] | (s0 & ct & tags & Hsn & Herr & _)]; subst sn.
  - destruct err' as [e|]; [| congruence].
    intros H. injection H as Hr He Hs. subst. left. now split.
  - subst err'. intros H. injection H as Hr He Hs. subst.
    right. eexists. split; [reflexivity |]. repeat split.
Qed.

Lemma pollRange_ok svc pollerInput integrationID :
  awsmodels.ResourcePollerInput.IntegrationID pollerInput = Some integrationID ->
  forall logGroups acc,
    Forall (fun g => CreationTime g <> None /\ Arn g <> None
                     /\ exists tags, ListTagsLogGroup svc (LogGroupName g) = Ok tags)
           logGroups ->
    exists added,
      pollRange svc pollerInput logGroups (Some acc) = Return (Ok (Some (acc ++ added)))
      /\ Forall2 (normalizedAs UnixTimeToDateTime schema integrationType svc pollerInput)
                 logGroups added.
Proof.
  intros Hid. induction logGroups as [|x rest IH]; intros acc Hall.
  - exists []. split; [simpl; now rewrite app_nil_r | constructor].
  - inversion Hall as [|? ? (Hc & Ha & tags & Ht) Hrest]; subst.
    destruct (CreationTime x) as [c|] eqn:Hcx; [| congruence].
    destruct (Arn x) as [a|] eqn:Hax; [| congruence].
    simpl. unfold buildCloudWatchLogsLogGroupSnapshot, listTagsLogGroup.
    rewrite Hcx, Ht. simpl. rewrite Hax, Hid. simpl.
    match goal with
    | |- context [Some (acc ++ [?entry])] =>
        destruct (IH (acc ++ [entry]) Hrest) as [added [Hrun Hrel]];
        exists (entry :: added)
    end.
    split.
    + rewrite Hrun. now rewrite <- app_assoc.
    + constructor; [| exact Hrel].
      unfold normalizedAs. simpl. rewrite Hax, Hcx, Hid, Ht.
      repeat split. exists c. now split.
Qed.

Lemma pollRange_not_nil svc pollerInput :
  forall logGroups acc resources,
    pollRange svc pollerInput logGroups (Some acc) = Return (Ok resources) ->
    exists l, resources = Some l.
Proof.
  induction logGroups as [|x rest IH]; intros acc resources; simpl.
  - intros H. injection H as H. subst. now exists acc.
  - destruct (build svc x) as [[[sn|] [e|]] | |]; simpl; try discriminate.
    destruct (awsmodels.ResourceID _); simpl; [| discriminate].
    destruct (awsmodels.ResourcePollerInput.IntegrationID pollerInput); simpl;
      [| discriminate].
    unfold Slice.append. simpl. apply IH.
Qed.

(** When every group of the batch carries a creation time and an ARN and
    its tags can be fetched, [PollCloudWatchLogsLogGroups] returns one
    resource entry per group, in the order of the enumeration, each filled
    from its group, and hands on the continuation token of the
    enumeration. *)
Theorem poll_all_success (fuel : nat) (pollerInput : awsmodels.ResourcePollerInput.t)
    (region integrationID : string) (svc : CloudWatchLogsAPI)
    (logGroups : Slice.t LogGroup) (marker : option string) :
  awsmodels.ResourcePollerInput.Region pollerInput = Some region ->
  awsmodels.ResourcePollerInput.IntegrationID pollerInput = Some integrationID ->
  getClient pollerInput "cloudwatchlogs" region = Ok svc ->
  describeLogGroups batch fuel svc
    (awsmodels.ResourcePollerInput.NextPageToken pollerInput)
  = Return (logGroups, marker, None) ->
  Forall (fun g => CreationTime g <> None /\ Arn g <> None
                   /\ exists tags, ListTagsLogGroup svc (LogGroupName g) = Ok tags)
         (Slice.elems logGroups) ->
  exists resources,
    pollAll fuel pollerInput = Return (Some resources, marker, None)
    /\ Forall2 (normalizedAs UnixTimeToDateTime schema integrationType svc pollerInput)
               (Slice.elems logGroups) resources
    /\ List.length resources = List.length (Slice.elems logGroups).
Proof.
  intros Hregion Hid Hclient Hlist Hall.
  destruct (pollRange_ok svc pollerInput integrationID Hid
              (Slice.elems logGroups) [] Hall) as [added [Hrun Hrel]].
  exists added. split; [| split; [exact Hrel |]].
  - unfold PollCloudWatchLogsLogGroups, getCloudWatchLogsClient.
    rewrite Hregion. simpl. rewrite Hclient, Hlist. simpl.
    unfold Slice.make. rewrite Hrun. reflexivity.
  - symmetry. exact (Forall2_length Hrel).
Qed.

(** Whatever [PollCloudWatchLogsLogGroups] returns, it is either an error
    with a nil batch and a nil token, or no error with a batch that is not
    nil, even when it is empty. *)
Theorem poll_all_outcomes (fuel : nat) (pollerInput : awsmodels.ResourcePollerInput.t)
    (resources : Slice.t (Entry DateTime)) (marker : option string)
    (err : option error) :
  pollAll fuel pollerInput = Return (resources, marker, err) ->
  (exists e, err = Some e /\ resources = None /\ marker = None)
  \/ (err = None /\ exists entries, resources = Some entries).
Proof.
  unfold PollCloudWatchLogsLogGroups.
  destruct (awsmodels.ResourcePollerInput.Region pollerInput) as [region|];
    simpl bind; [| discriminate].
  destruct (getCloudWatchLogsClient getClient pollerInput region) as [svc | e].
  2: { intros H. injection H as Hr Hm He. subst. left. now exists e. }
  destruct (describeLogGroups batch fuel svc _) as [[[lgs mk] [e|]] | |];
    simpl bind; try discriminate.
  { intros H. injection H as Hr Hm He. subst. left. now exists e. }
  destruct (pollRange svc pollerInput (Slice.elems lgs) (Slice.make (Entry DateTime)))
    as [[r | e] | |] eqn:Hrange; simpl bind; try discriminate;
    intros H; injection H as Hr Hm He; subst.
  - right. split; [reflexivity |].
    exact (pollRange_not_nil svc pollerInput _ _ _ Hrange).
  - left. now exists e.
Qed.

End MorePolling.

(** With a ceiling of zero or less the comparison succeeds after the first
    page whatever its size: every call returns exactly one page, with that
    page's token when it announces a further page. *)
Theorem nonpositive_ceiling_takes_one_page (batch : Z) (svc : CloudWatchLogsAPI)
    (token : option string) (page : DescribeLogGroupsOutput) (fuel : nat) :
  (batch <= 0)%Z ->
  DescribeLogGroups svc (pageRequest token) = Ok page ->
  describeLogGroups batch (S fuel) svc token
  = Return (Slice.append None (LogGroups page),
            (if hasNextPage page then NextToken page else None), None).
Proof.
  intros Hbatch Hreq. rewrite describeLogGroups_loop.
  rewrite (pagesLoop_stop batch fuel svc token page None None Hreq).
  - unfold stopMarker.
    assert (Hlen : (Slice.len (Slice.append None (LogGroups page)) >=? batch)%Z = true).
    { rewrite len_append. apply Z.geb_le. unfold Slice.len. simpl.
      pose proof (Nat2Z.is_nonneg (List.length (LogGroups page))). lia. }
    rewrite Hlen. reflexivity.
  - left. apply Z.ltb_ge. unfold Slice.len, pageSize.
    pose proof (Nat2Z.is_nonneg (List.length (LogGroups page))).
    change (List.length (@Slice.elems LogGroup None)) with 0%nat. lia.
Qed.

Lemma nonpositive_ceiling_takes_one_page_witness :
  (0 <= 0)%Z
  /\ describeLogGroups 0 3 twoPages None
     = Return (Some [g0; g1; g2], Some "it"%string, None).
Proof.
  split; [lia |].
  apply (nonpositive_ceiling_takes_one_page 0 twoPages None
           {| LogGroups := [g0; g1; g2]; NextToken := Some "it"%string |} 2).
  - lia.
  - reflexivity.
Defined.

(** ** The further properties at concrete inputs *)

Lemma poll_one_found_witness :
  exists snapshot,
    PollCloudWatchLogsLogGroup secondsOf "AWS.CloudWatch.LogGroup"%string
      (clientOf (prefixProvider [g0; g1; g2; g3])) sampleInput appProdARN sampleScan
    = Return (Some snapshot, None, {| pollermodels.ResourceID := Arn g1 |})
    /\ awsmodels.Region (awsmodels.GenericAWS snapshot) = Some (arn.Region appProdARN)
    /\ awsmodels.AccountID (awsmodels.GenericAWS snapshot)
       = Some (arn.AccountID appProdARN)
    /\ awsmodels.Name (awsmodels.GenericAWS snapshot) = Some "app-prod"%string
    /\ awsmodels.ARN (awsmodels.GenericAWS snapshot) = Arn g1
    /\ awsmodels.Tags (awsmodels.GenericAWS snapshot) = []
    /\ awsmodels.ResourceID (awsmodels.Generic snapshot) = Arn g1
    /\ awsmodels.TimeCreated (awsmodels.Generic snapshot)
       = secondsOf (int64_div 1583020800123 1000).
Proof.
  apply (poll_one_found Z secondsOf "AWS.CloudWatch.LogGroup"%string
           (clientOf (prefixProvider [g0; g1; g2; g3])) sampleInput appProdARN
           sampleScan (prefixProvider [g0; g1; g2; g3])
           "app-prod"%string "log-stream:web"%string
           {| LogGroups := [g1]; NextToken := None |} [] [] g1
           1583020800123%Z []); try reflexivity.
  constructor.
Defined.

Lemma poll_one_lookup_error_witness :
  PollCloudWatchLogsLogGroup secondsOf "AWS.CloudWatch.LogGroup"%string
    (clientOf deniedProvider) sampleInput appProdARN sampleScan
  = Return (None,
            Some (Wrap (ProviderError "AccessDeniedException")
                       "CloudWatchLogs.DescribeLogGroups"),
            sampleScan).
Proof.
  apply (poll_one_lookup_error Z secondsOf "AWS.CloudWatch.LogGroup"%string
           (clientOf deniedProvider) sampleInput appProdARN sampleScan
           deniedProvider "app-prod"%string (ProviderError "AccessDeniedException"));
    reflexivity.
Defined.

Lemma poll_one_tag_failure_witness :
  getLogGroup untaggableProvider "app-prod" = Return (Some g1, None)
  /\ PollCloudWatchLogsLogGroup secondsOf "AWS.CloudWatch.LogGroup"%string
       (clientOf untaggableProvider) sampleInput appProdARN sampleScan
     = Return (None,
               Some (Wrap (ProviderError "AccessDeniedException")
                          "CloudWatchLogs ListTagsLogGroup"),
               sampleScan).
Proof.
  split; [reflexivity |].
  apply (poll_one_tag_failure Z secondsOf "AWS.CloudWatch.LogGroup"%string
           (clientOf untaggableProvider) sampleInput appProdARN sampleScan
           untaggableProvider "app-prod"%string g1 1583020800123%Z
           (ProviderError "AccessDeniedException")); reflexivity.
Defined.

Lemma poll_one_outcomes_witness :
  (@None (Snapshot Z) = None /\ sampleScan = sampleScan)
  \/ (exists snapshot : Snapshot Z,
        None = Some snapshot /\ @None error = None
        /\ pollermodels.ResourceID sampleScan
           = awsmodels.ARN (awsmodels.GenericAWS snapshot)
        /\ awsmodels.Region (awsmodels.GenericAWS snapshot)
           = Some (arn.Region vanishedARN)
        /\ awsmodels.AccountID (awsmodels.GenericAWS snapshot)
           = Some (arn.AccountID vanishedARN)).
Proof.
  apply (poll_one_outcomes Z secondsOf "AWS.CloudWatch.LogGroup"%string
           (clientOf (prefixProvider [g0; g1; g2; g3])) sampleInput vanishedARN
           sampleScan sampleScan None None).
  reflexivity.
Defined.

Lemma poll_all_success_witness :
  describeLogGroups 2 3 twoPages None = Return (Some [g0; g1; g2], Some "it"%string, None)
  /\ exists resources,
       PollCloudWatchLogsLogGroups 2 secondsOf "AWS.CloudWatch.LogGroup"%string
         "aws"%string (clientOf twoPages) 3 sampleInput
       = Return (Some resources, Some "it"%string, None)
       /\ Forall2 (normalizedAs secondsOf "AWS.CloudWatch.LogGroup"%string "aws"%string
                     twoPages sampleInput)
                  (Slice.elems (Some [g0; g1; g2])) resources
       /\ List.length resources = List.length (Slice.elems (Some [g0; g1; g2])).
Proof.
  split; [reflexivity |].
  apply (poll_all_success 2 Z secondsOf "AWS.CloudWatch.LogGroup"%string "aws"%string
           (clientOf twoPages) 3 sampleInput "us-west-2"%string
           "189cddfa-6fd5-419e-8b0e-668105b67dc0"%string twoPages
           (Some [g0; g1; g2]) (Some "it"%string)); try reflexivity.
  repeat constructor; try discriminate; eexists; reflexivity.
Defined.

Lemma poll_all_outcomes_witness :
  (exists e,
      Some (Wrap (ProviderError "ThrottlingException") "CloudWatchLogs.DescribeLogGroups")
      = Some e
      /\ @None (list (Entry Z)) = None /\ @None string = None)
  \/ (Some (Wrap (ProviderError "ThrottlingException") "CloudWatchLogs.DescribeLogGroups")
      = None
      /\ exists entries : list (Entry Z), None = Some entries).
Proof.
  apply (poll_all_outcomes 100 Z secondsOf "AWS.CloudWatch.LogGroup"%string "aws"%string
           (clientOf throttledProvider) 2 sampleInput None None
           (Some (Wrap (ProviderError "ThrottlingException")
                       "CloudWatchLogs.DescribeLogGroups"))).
  reflexivity.
Defined.

(** * Alert delivery: validation of the requested outputs *)

Section Validation.

Variable AlertOutput : Type.
Variable OutputID : AlertOutput -> option string.

Notation "'known'" := (api.knownID OutputID).

Lemma contains_known outputIds id :
  Forall (fun item => OutputID item <> None) outputIds ->
  api.contains OutputID outputIds id = Return (known outputIds id).
Proof.
  induction 1 as [|item rest Hitem _ IH]; [reflexivity |].
  simpl. destruct (OutputID item) as [x|]; [| congruence]. simpl.
  destruct (String.eqb x id); [reflexivity | exact IH].
Qed.

Lemma known_In outputIds id :
  known outputIds id = true <-> exists item, In item outputIds /\ OutputID item = Some id.
Proof.
  unfold api.knownID. rewrite existsb_exists. split.
  - intros [item [Hin Heq]]. exists item. split; [exact Hin |].
    destruct (OutputID item) as [x|]; [| discriminate].
    apply String.eqb_eq in Heq. now subst.
  - intros [item [Hin Hid]]. exists item. split; [exact Hin |].
    rewrite Hid. apply String.eqb_refl.
Qed.

(** When every output carries an ID, [contains] returns, and it returns
    true exactly when some output of the list has the requested ID. *)
Theorem contains_decides_membership (outputIds : list AlertOutput) (id : string) :
  Forall (fun item => OutputID item <> None) outputIds ->
  exists b,
    api.contains OutputID outputIds id = Return b
    /\ (b = true <-> exists item, In item outputIds /\ OutputID item = Some id).
Proof.
  intros Hall. exists (known outputIds id). split.
  - exact (contains_known outputIds id Hall).
  - apply known_In.
Qed.

Lemma skipn_S_tl (A : Type) (k : nat) (l : list A) : skipn (S k) l = tl (skipn k l).
Proof.
  revert l. induction k as [|k IH]; intros [|x l]; try reflexivity.
  change (skipn (S (S k)) (x :: l)) with (skipn (S k) l).
  change (skipn (S k) (x :: l)) with (skipn k l). apply IH.
Qed.

Lemma nth_error_skipn_hd (A : Type) (k : nat) (l : list A) :
  nth_error l k = hd_error (skipn k l).
Proof.
  revert l. induction k as [|k IH]; intros [|x l]; try reflexivity. simpl. apply IH.
Qed.

Lemma nth_error_in_range (A : Type) (k : nat) (l : list A) :
  (k < List.length l)%nat -> exists x, nth_error l k = Some x.
Proof.
  intros Hk. destruct (nth_error l k) as [x|] eqn:E; [now exists x |].
  apply nth_error_None in E. lia.
Qed.

(** The loop from index [k]: without an out-of-range index it returns the
    unknown IDs, and the outputs found at the positions of the known ones. *)
Lemma validateInputs_range_ok outputIds :
  Forall (fun item => OutputID item <> None) outputIds ->
  forall inputIds k invalid valid,
    (forall j id, nth_error inputIds j = Some id -> known outputIds id = true ->
                  (k + j < List.length outputIds)%nat) ->
    exists invalid' valid',
      api.validateInputs_range OutputID k inputIds outputIds invalid valid
      = Return (invalid', valid')
      /\ Slice.elems invalid'
         = Slice.elems invalid ++ filter (fun id => negb (known outputIds id)) inputIds
      /\ Slice.elems valid'
         = Slice.elems valid
           ++ map snd (filter (fun p => known outputIds (fst p))
                              (combine inputIds (skipn k outputIds))).
Proof.
  intros Hall. induction inputIds as [|id rest IH]; intros k invalid valid Hrange.
  - exists invalid, valid. simpl. now rewrite !app_nil_r.
  - simpl. rewrite (contains_known outputIds id Hall). simpl.
    assert (Hrest : forall j id', nth_error rest j = Some id' ->
                                  known outputIds id' = true ->
                                  (S k + j < List.length outputIds)%nat).
    { intros j id' Hj Hk. specialize (Hrange (S j) id' Hj Hk). lia. }
    destruct (known outputIds id) eqn:Hknown; simpl.
    + destruct (nth_error_in_range _ k outputIds) as [o Ho].
      { specialize (Hrange 0%nat id eq_refl Hknown). lia. }
      unfold indexAt. rewrite Ho. simpl.
      destruct (IH (S k) invalid (Slice.append valid [o]) Hrest)
        as (invalid' & valid' & Hrun & Hinv & Hval).
      exists invalid', valid'. split; [exact Hrun |]. split; [exact Hinv |].
      rewrite Hval, elems_append, <- app_assoc. f_equal.
      rewrite nth_error_skipn_hd in Ho. rewrite skipn_S_tl.
      destruct (skipn k outputIds) as [|o' tl]; [discriminate |].
      injection Ho as Ho. subst o'. simpl. now rewrite Hknown.
    + destruct (IH (S k) (Slice.append invalid [id]) valid Hrest)
        as (invalid' & valid' & Hrun & Hinv & Hval).
      exists invalid', valid'. split; [exact Hrun |]. split.
      * rewrite Hinv, elems_append, <- app_assoc. reflexivity.
      * rewrite Hval. f_equal. rewrite skipn_S_tl.
        destruct (skipn k outputIds) as [|o' tl]; simpl.
        -- now destruct rest.
        -- now rewrite Hknown.
Qed.

Lemma partition_lengths (B : Type) (f : string -> bool) (inputIds : list string) :
  forall outs : list B,
    (forall i id, nth_error inputIds i = Some id -> f id = true ->
                  (i < List.length outs)%nat) ->
    (List.length (filter (fun id => negb (f id)) inputIds)
     + List.length (filter (fun p => f (fst p)) (combine inputIds outs))
     = List.length inputIds)%nat.
Proof.
  induction inputIds as [|id rest IH]; intros outs Hrange; [reflexivity |].
  assert (Hrest : forall outs' : list B, (List.length outs <= S (List.length outs'))%nat ->
                    forall i id', nth_error rest i = Some id' -> f id' = true ->
                                  (i < List.length outs')%nat).
  { intros outs' Hlen i id' Hi Hk. specialize (Hrange (S i) id' Hi Hk). lia. }
  simpl. destruct (f id) eqn:Hf; simpl.
  - destruct outs as [|o outs'].
    + specialize (Hrange 0%nat id eq_refl Hf). simpl in Hrange. lia.
    + simpl. rewrite Hf. simpl. rewrite <- (IH outs'); [lia |].
      apply Hrest. simpl. lia.
  - destruct outs as [|o outs'].
    + simpl. f_equal. rewrite <- (IH (@nil B)); [now rewrite combine_nil |].
      intros i id' Hi Hk. specialize (Hrange (S i) id' Hi Hk). simpl in Hrange. lia.
    + simpl. rewrite Hf. simpl. f_equal. apply IH. apply Hrest. simpl. lia.
Qed.

(** When every output carries an ID and no known ID stands at a position
    beyond the outputs, [validateInputs] returns: the invalid IDs are the
    requested IDs that no output carries, in request order, and the valid
    outputs are the outputs that stand at the positions of the known IDs in
    the request, which need not be the outputs carrying those IDs. *)
Theorem validateInputs_partition (inputIds : list string)
    (outputIds : list AlertOutput) :
  Forall (fun item => OutputID item <> None) outputIds ->
  (forall i id, nth_error inputIds i = Some id -> known outputIds id = true ->
                (i < List.length outputIds)%nat) ->
  exists invalid valid,
    api.validateInputs OutputID inputIds outputIds = Return (invalid, valid)
    /\ Slice.elems invalid = filter (fun id => negb (known outputIds id)) inputIds
    /\ Slice.elems valid
       = map snd (filter (fun p => known outputIds (fst p)) (combine inputIds outputIds))
    /\ (List.length (Slice.elems invalid) + List.length (Slice.elems valid)
        = List.length inputIds)%nat.
Proof.
  intros Hall Hrange.
  destruct (validateInputs_range_ok outputIds Hall inputIds 0 None None Hrange)
    as (invalid & valid & Hrun & Hinv & Hval).
  simpl in Hinv, Hval. exists invalid, valid.
  split; [exact Hrun |]. split; [exact Hinv |]. split; [exact Hval |].
  rewrite Hinv, Hval, length_map.
  apply (partition_lengths _ (known outputIds) inputIds outputIds Hrange).
Qed.

Lemma filter_all (A : Type) (f : A -> bool) (l : list A) :
  Forall (fun x => f x = true) l -> filter f l = l.
Proof.
  induction 1 as [|x l Hx _ IH]; [reflexivity |]. simpl. now rewrite Hx, IH.
Qed.

Lemma filter_none (A : Type) (f : A -> bool) (l : list A) :
  Forall (fun x => f x = true) l -> filter (fun x => negb (f x)) l = [].
Proof.
  induction 1 as [|x l Hx _ IH]; [reflexivity |]. simpl. now rewrite Hx.
Qed.

Lemma Forall_combine_fst (A B : Type) (P : A -> Prop) (l : list A) :
  Forall P l -> forall l' : list B, Forall (fun p => P (fst p)) (combine l l').
Proof.
  induction 1 as [|x l Hx _ IH]; intros [|y l']; simpl; constructor; auto.
Qed.

Lemma map_snd_combine (A B : Type) (l : list A) :
  forall l' : list B,
    (List.length l <= List.length l')%nat ->
    map snd (combine l l') = firstn (List.length l) l'.
Proof.
  induction l as [|x l IH]; intros [|y l'] Hlen; simpl in *; try reflexivity.
  f_equal. apply IH. lia.
Qed.

(** When every requested ID is known and there are at least as many
    outputs as requested IDs, nothing is invalid and the valid outputs are
    the first outputs of the list, as many as IDs were requested: which IDs
    were requested, and in which order, makes no difference. *)
Theorem validateInputs_leading_outputs (inputIds : list string)
    (outputIds : list AlertOutput) :
  Forall (fun item => OutputID item <> None) outputIds ->
  Forall (fun id => known outputIds id = true) inputIds ->
  (List.length inputIds <= List.length outputIds)%nat ->
  exists invalid valid,
    api.validateInputs OutputID inputIds outputIds = Return (invalid, valid)
    /\ Slice.elems invalid = []
    /\ Slice.elems valid = firstn (List.length inputIds) outputIds.
Proof.
  intros Hall Hknown Hlen.
  destruct (validateInputs_range_ok outputIds Hall inputIds 0 None None)
    as (invalid & valid & Hrun & Hinv & Hval).
  { intros j id Hj _. assert (j < List.length inputIds)%nat; [| lia].
    apply nth_error_Some. congruence. }
  exists invalid, valid. split; [exact Hrun |]. simpl in Hinv, Hval. split.
  - rewrite Hinv. now apply filter_none.
  - rewrite Hval, filter_all.
    + now apply map_snd_combine.
    + exact (Forall_combine_fst _ _ (fun id => known outputIds id = true)
               inputIds Hknown outputIds).
Qed.

Lemma validateInputs_range_panic outputIds :
  Forall (fun item => OutputID item <> None) outputIds ->
  forall inputIds k j id invalid valid,
    nth_error inputIds j = Some id ->
    known outputIds id = true ->
    (List.length outputIds <= k + j)%nat ->
    api.validateInputs_range OutputID k inputIds outputIds invalid valid = Panic.
Proof.
  intros Hall. induction inputIds as [|h rest IH];
    intros k j id invalid valid Hj Hknown Hlen.
  - destruct j; discriminate.
  - simpl. rewrite (contains_known outputIds h Hall). simpl.
    destruct j as [|j].
    + injection Hj as Hj. subst h. rewrite Hknown. simpl.
      unfold indexAt. replace (nth_error outputIds k) with (@None AlertOutput);
        [reflexivity |].
      symmetry. apply nth_error_None. lia.
    + simpl in Hj. destruct (known outputIds h); simpl.
      * unfold indexAt. destruct (nth_error outputIds k); simpl; [| reflexivity].
        apply (IH (S k) j id); [exact Hj | exact Hknown | lia].
      * apply (IH (S k) j id); [exact Hj | exact Hknown | lia].
Qed.

(** A known ID at a position of the request beyond the last output makes
    [validateInputs] index the outputs out of range: it panics, whatever
    else is requested. *)
Theorem validateInputs_index_panic (inputIds : list string)
    (outputIds : list AlertOutput) (i : nat) (id : string) :
  Forall (fun item => OutputID item <> None) outputIds ->
  nth_error inputIds i = Some id ->
  known outputIds id = true ->
  (List.length outputIds <= i)%nat ->
  api.validateInputs OutputID inputIds outputIds = Panic.
Proof.
  intros Hall Hi Hknown Hlen.
  apply (validateInputs_range_panic outputIds Hall inputIds 0 i id None None
           Hi Hknown Hlen).
Qed.

End Validation.

(** * Alert delivery: [DeliverAlert] *)

Section DeliveryProperties.

Variable AlertOutput : Type.
Variable OutputID : AlertOutput -> option string.
Variable Time Severity OutputIdList Name Version Title SummaryFields : Type.
Variable GetAlert :
  string -> response (option (api.AlertItem Time Severity OutputIdList Name Version Title)).
Variable GetOutputs : response (list AlertOutput).
Variable DeliverAlerts :
  list (api.Alert Time Severity OutputIdList Name Version Title * Slice.t AlertOutput)
  -> list api.DispatchStatus.
Variable AlertItemToSummary :
  api.AlertItem Time Severity OutputIdList Name Version Title
  -> api.AlertSummary SummaryFields.
Variable ReplaceMapSliceNils :
  api.AlertSummary SummaryFields -> api.AlertSummary SummaryFields.

Notation "'known'" := (api.knownID OutputID).
Notation "'deliver'" :=
  (api.DeliverAlert OutputID GetAlert GetOutputs DeliverAlerts AlertItemToSummary
     ReplaceMapSliceNils).



End DeliveryProperties.

(** * Documentation generator: Glue types *)

Section GlueTypes.

Local Open Scope string_scope.

Lemma length_append (a b : string) :
  String.length (a ++ b) = (String.length a + String.length b)%nat.
Proof.
  induction a as [|c a IH]; simpl; [reflexivity | now rewrite IH].
Qed.

Lemma append_nil_r (a : string) : a ++ "" = a.
Proof.
  induction a as [|c a IH]; simpl; [reflexivity | now rewrite IH].
Qed.

Lemma append_assoc (a b c : string) : (a ++ b) ++ c = a ++ b ++ c.
Proof.
  induction a as [|x a IH]; simpl; [reflexivity | now rewrite IH].
Qed.

Lemma substring_0_left (a b : string) : substring 0 (String.length a) (a ++ b) = a.
Proof.
  induction a as [|c a IH]; simpl; [now destruct b | now rewrite IH].
Qed.

Lemma substring_0_all (a : string) : substring 0 (String.length a) a = a.
Proof.
  rewrite <- (append_nil_r a) at 2. apply substring_0_left.
Qed.

Lemma substring_skip (a s : string) (m : nat) :
  substring (String.length a) m (a ++ s) = substring 0 m s.
Proof.
  induction a as [|c a IH]; simpl; [reflexivity | exact IH].
Qed.

Lemma substring_middle (a b c : string) :
  substring (String.length a) (String.length b) (a ++ b ++ c) = b.
Proof.
  rewrite substring_skip. apply substring_0_left.
Qed.

Lemma length_substring (n m : nat) (s : string) :
  (String.length (substring n m s) <= String.length s)%nat.
Proof.
  revert n m. induction s as [|c s IH]; intros [|n] [|m]; simpl; try lia.
  - specialize (IH 0%nat m). lia.
  - specialize (IH n 0%nat). lia.
  - specialize (IH n (S m)). lia.
Qed.

Lemma sliceStr_middle (a b c : string) :
  sliceStr (a ++ b ++ c) (Z.of_nat (String.length a))
           (Z.of_nat (String.length a + String.length b))
  = Return b.
Proof.
  unfold sliceStr. rewrite !length_append.
  match goal with
  | |- (if ?cond then _ else _) = _ =>
      assert (Hcond : cond = true);
      [repeat (apply andb_true_intro; split); apply Z.leb_le; lia | rewrite Hcond]
  end.
  rewrite Nat2Z.id.
  replace (Z.to_nat (Z.of_nat (String.length a + String.length b)
                     - Z.of_nat (String.length a)))
    with (String.length b) by lia.
  now rewrite substring_middle.
Qed.

Lemma Join_snoc_append (l : list string) (a b sep : string) :
  Join (List.app l [a ++ b]) sep = Join (List.app l [a]) sep ++ b.
Proof.
  unfold Join. induction l as [|x l IH]; simpl; [reflexivity |].
  destruct l as [|y l]; simpl in *.
  - now rewrite !append_assoc.
  - rewrite IH. now rewrite !append_assoc.
Qed.

Lemma Join_snoc_empty (l : list string) (a sep : string) :
  Join (List.app l [a; EmptyString]) sep = Join (List.app l [a]) sep ++ sep.
Proof.
  unfold Join. induction l as [|x l IH]; simpl; [now rewrite append_nil_r |].
  destruct l as [|y l]; simpl in *.
  - now rewrite append_nil_r, !append_assoc.
  - rewrite IH. now rewrite !append_assoc.
Qed.

(** The loop of [getTypeFields] when [fields] is [done ++ cur ++ rest], the
    fields of [done] being collected and [cur] being the field under way:
    it never slices out of range, and joining what it collects with the
    remainder gives back the text. *)
Lemma getTypeFields_range_spec (fields : string) :
  forall rest done cur count acc,
    fields = done ++ cur ++ rest ->
    exists acc' start',
      mage.getTypeFields_range fields rest (String.length done + String.length cur)
        (String.length done) count acc
      = Return (acc', start')
      /\ (start' <= String.length fields)%nat
      /\ Join (List.app (Slice.elems acc')
                 [substring start' (String.length fields - start') fields]) ","
         = Join (List.app (Slice.elems acc) [cur]) "," ++ rest
      /\ (Forall (fun p => (String.length p <= String.length fields)%nat)
                 (Slice.elems acc) ->
          Forall (fun p => (String.length p <= String.length fields)%nat)
                 (Slice.elems acc')).
Proof.
  induction rest as [|c r IH]; intros done cur count acc Hfields.
  - exists acc, (String.length done). simpl.
    split; [reflexivity |]. subst fields. rewrite !length_append. simpl.
    split; [lia |]. split; [| tauto].
    replace (String.length done + (String.length cur + 0) - String.length done)%nat
      with (String.length cur) by lia.
    now rewrite substring_middle, append_nil_r.
  - simpl.
    destruct (Ascii.eqb c ","%char && (count =? 0)%Z) eqn:Hsplit.
    + apply andb_prop in Hsplit. destruct Hsplit as [Hc _].
      apply Ascii.eqb_eq in Hc. subst c.
      assert (Hpiece : sliceStr fields (Z.of_nat (String.length done))
                         (Z.of_nat (String.length done + String.length cur))
                       = Return cur).
      { subst fields. apply sliceStr_middle. }
      rewrite Hpiece. simpl.
      destruct (IH (done ++ cur ++ ",") "" count (Slice.append acc [cur]))
        as (acc' & start' & Hrun & Hstart & Hjoin & Hlen).
      { subst fields. now rewrite !append_assoc. }
      rewrite !length_append in Hrun. simpl in Hrun.
      replace (String.length done + (String.length cur + 1) + 0)%nat
        with (S (String.length done + String.length cur)) in Hrun by lia.
      replace (String.length done + (String.length cur + 1))%nat
        with (S (String.length done + String.length cur)) in Hrun by lia.
      exists acc', start'. split; [exact Hrun |]. split; [exact Hstart |]. split.
      * rewrite Hjoin, elems_append, <- app_assoc. simpl.
        rewrite Join_snoc_empty. now rewrite append_assoc.
      * intros Hacc. apply Hlen. rewrite elems_append. apply Forall_app.
        split; [exact Hacc |]. constructor; [| constructor].
        subst fields. rewrite !length_append. lia.
    + simpl.
      destruct (IH done (cur ++ String c "")
                  (if Ascii.eqb c "<"%char then (count + 1)%Z
                   else if Ascii.eqb c ">"%char then (count - 1)%Z else count) acc)
        as (acc' & start' & Hrun & Hstart & Hjoin & Hlen).
      { subst fields. now rewrite !append_assoc. }
      rewrite length_append in Hrun. simpl in Hrun.
      replace (String.length done + (String.length cur + 1))%nat
        with (S (String.length done + String.length cur)) in Hrun by lia.
      exists acc', start'. split; [exact Hrun |]. split; [exact Hstart |].
      split; [| exact Hlen].
      rewrite Hjoin, Join_snoc_append. now rewrite append_assoc.
Qed.

Lemma length_substring_exact (n m : nat) (s : string) :
  (n + m <= String.length s)%nat -> String.length (substring n m s) = m.
Proof.
  revert n m. induction s as [|c s IH]; intros [|n] [|m] H; simpl in *;
    try reflexivity; try lia.
  - rewrite (IH 0%nat m); [reflexivity | lia].
  - apply (IH n 0%nat). lia.
  - apply (IH n (S m)). lia.
Qed.

Lemma sliceStr_in_range (s : string) (lo hi : nat) :
  (lo <= hi)%nat -> (hi <= String.length s)%nat ->
  sliceStr s (Z.of_nat lo) (Z.of_nat hi) = Return (substring lo (hi - lo) s).
Proof.
  intros Hlo Hhi. unfold sliceStr.
  match goal with
  | |- (if ?cond then _ else _) = _ =>
      assert (Hcond : cond = true);
      [repeat (apply andb_true_intro; split); apply Z.leb_le; lia | rewrite Hcond]
  end.
  rewrite Nat2Z.id. now replace (Z.to_nat (Z.of_nat hi - Z.of_nat lo)) with (hi - lo)%nat by lia.
Qed.

Lemma Join_snoc_sep (l : list string) (sep : string) :
  l <> [] -> Join (List.app l [EmptyString]) sep = Join l sep ++ sep.
Proof.
  intros Hl. destruct (@exists_last _ l Hl) as (init & a & Hinit). subst l.
  rewrite <- app_assoc. simpl. apply Join_snoc_empty.
Qed.

(** The text [getTypeFields] splits: [colType] without its first
    [len(complexType) + 1] bytes and without its last byte. *)
Lemma getTypeFields_spec (complexType colType : string) :
  (String.length complexType + 2 <= String.length colType)%nat ->
  exists subFields,
    mage.getTypeFields complexType colType = Return subFields
    /\ (let inner := substring (String.length complexType + 1)
                       (String.length colType - String.length complexType - 2) colType in
        (Join (Slice.elems subFields) "," = inner
         \/ Join (Slice.elems subFields) "," ++ "," = inner)
        /\ Forall (fun p => (String.length p <= String.length inner)%nat)
                  (Slice.elems subFields)).
Proof.
  intros Hlen. unfold mage.getTypeFields.
  replace (Z.of_nat (String.length complexType) + 1)%Z
    with (Z.of_nat (String.length complexType + 1)) by lia.
  replace (Z.of_nat (String.length colType) - 1)%Z
    with (Z.of_nat (String.length colType - 1)) by lia.
  rewrite sliceStr_in_range by lia.
  replace (String.length colType - 1 - (String.length complexType + 1))%nat
    with (String.length colType - String.length complexType - 2)%nat by lia.
  set (inner := substring _ _ colType). simpl bind.
  destruct (getTypeFields_range_spec inner inner "" "" 0%Z None eq_refl)
    as (acc & start & Hrun & Hstart & Hjoin & Hall).
  simpl in Hrun. rewrite Hrun. simpl bind.
  rewrite sliceStr_in_range by lia. simpl bind.
  set (last := substring start (String.length inner - start) inner) in *.
  simpl in Hjoin.
  destruct (Z.of_nat (String.length last) >? 0)%Z eqn:Hlast.
  - eexists. split; [reflexivity |]. rewrite elems_append. split.
    + left. exact Hjoin.
    + apply Forall_app. split; [apply Hall; constructor |].
      constructor; [apply length_substring | constructor].
  - exists acc. split; [reflexivity |].
    assert (Hempty : last = "").
    { pose proof (Zgt_cases (Z.of_nat (String.length last)) 0) as Hcases.
      rewrite Hlast in Hcases. clearbody last.
      destruct last; [reflexivity | simpl in Hcases; lia]. }
    rewrite Hempty in Hjoin. split; [| apply Hall; constructor].
    destruct (Slice.elems acc) as [|x l] eqn:Hacc.
    + left. exact Hjoin.
    + right. rewrite <- Hjoin. symmetry. apply Join_snoc_sep. discriminate.
Qed.

(** [getTypeFields] panics exactly when [colType] is too short to hold
    [complexType] and two more bytes; it does not look at what those bytes
    are. *)
Theorem getTypeFields_out_of_range (complexType colType : string) :
  mage.getTypeFields complexType colType = Panic
  <-> (String.length colType < String.length complexType + 2)%nat.
Proof.
  split.
  - intros Hpanic.
    destruct (Nat.lt_ge_cases (String.length colType) (String.length complexType + 2))
      as [Hlt | Hge]; [exact Hlt |].
    destruct (getTypeFields_spec complexType colType Hge) as (sub & Hrun & _).
    rewrite Hrun in Hpanic. discriminate.
  - intros Hlt. unfold mage.getTypeFields, sliceStr.
    replace (Z.of_nat (String.length complexType) + 1
             <=? Z.of_nat (String.length colType) - 1)%Z with false by lia.
    rewrite andb_false_r. reflexivity.
Qed.

(** Joining with commas the fields [getTypeFields] returns gives back the
    text between the brackets, except for one comma at its very end, which
    is dropped. *)
Theorem getTypeFields_join (complexType colType : string) :
  (String.length complexType + 2 <= String.length colType)%nat ->
  exists subFields,
    mage.getTypeFields complexType colType = Return subFields
    /\ let inner := substring (String.length complexType + 1)
                      (String.length colType - String.length complexType - 2) colType in
       Join (Slice.elems subFields) "," = inner
       \/ Join (Slice.elems subFields) "," ++ "," = inner.
Proof.
  intros Hlen.
  destruct (getTypeFields_spec complexType colType Hlen) as (sub & Hrun & Hjoin & _).
  exists sub. split; [exact Hrun | exact Hjoin].
Qed.

Lemma getTypeFields_range_app (fields a rest : string) :
  forall index start count acc,
    noTopComma count a = true ->
    mage.getTypeFields_range fields (a ++ rest) index start count acc
    = mage.getTypeFields_range fields rest (index + String.length a) start
        (depthAfter count a) acc.
Proof.
  induction a as [|c a IH]; intros index start count acc Hno; simpl.
  - now rewrite Nat.add_0_r.
  - simpl in Hno. apply andb_prop in Hno. destruct Hno as [Hc Hrest].
    apply negb_true_iff in Hc. rewrite Hc. simpl.
    rewrite (IH (S index) start _ acc Hrest). f_equal. lia.
Qed.

Lemma append_cons_assoc (a : string) (c : ascii) (b : string) :
  a ++ String c b = (a ++ String c "") ++ b.
Proof.
  now rewrite append_assoc.
Qed.

Lemma Join_cons_snoc (x : string) (l : list string) (y sep : string) :
  Join (x :: List.app l [y]) sep = x ++ sep ++ Join (List.app l [y]) sep.
Proof.
  unfold Join. simpl. destruct l; reflexivity.
Qed.

(** The loop over the join of the fields [init] and [lastf], each field of
    [init] free of top-level commas and with matching brackets. *)
Lemma getTypeFields_range_join (fields : string) :
  forall init lastf done acc,
    Forall (fun f => noTopComma 0 f = true /\ depthAfter 0 f = 0%Z) init ->
    noTopComma 0 lastf = true ->
    fields = done ++ Join (List.app init [lastf]) "," ->
    exists acc',
      mage.getTypeFields_range fields (Join (List.app init [lastf]) ",")
        (String.length done) (String.length done) 0 acc
      = Return (acc', (String.length fields - String.length lastf)%nat)
      /\ Slice.elems acc' = List.app (Slice.elems acc) init.
Proof.
  induction init as [|x init IH]; intros lastf done acc Hinit Hlast Hfields.
  - exists acc. simpl. unfold Join. simpl.
    rewrite <- (append_nil_r lastf) at 1.
    rewrite (getTypeFields_range_app fields lastf "" _ _ _ acc Hlast). simpl.
    split; [| now rewrite app_nil_r].
    subst fields. unfold Join. simpl. rewrite length_append.
    do 2 f_equal. lia.
  - inversion Hinit as [|? ? [Hx Hdepth] Hrest]; subst x0 l.
    simpl List.app in *. rewrite Join_cons_snoc in *.
    rewrite (getTypeFields_range_app fields x _ _ _ _ acc Hx). rewrite Hdepth.
    simpl.
    assert (Hpiece : sliceStr fields (Z.of_nat (String.length done))
                       (Z.of_nat (String.length done + String.length x))
                     = Return x).
    { rewrite Hfields. apply sliceStr_middle. }
    rewrite Hpiece. simpl.
    destruct (IH lastf (done ++ x ++ ",") (Slice.append acc [x]) Hrest Hlast)
      as (acc' & Hrun & Hel).
    { rewrite Hfields. now rewrite !append_assoc. }
    rewrite !length_append in Hrun. simpl in Hrun.
    replace (String.length done + (String.length x + 1))%nat
      with (S (String.length done + String.length x)) in Hrun by lia.
    exists acc'. split; [exact Hrun |].
    rewrite Hel, elems_append, <- app_assoc. reflexivity.
Qed.

Lemma getTypeFields_joined (complexType : string) (opening closing : ascii)
    (init : list string) (lastf : string) :
  Forall (fun f => noTopComma 0 f = true /\ depthAfter 0 f = 0%Z) init ->
  noTopComma 0 lastf = true ->
  lastf <> "" ->
  mage.getTypeFields complexType
    (complexType
     ++ String opening (Join (List.app init [lastf]) "," ++ String closing ""))
  = Return (Some (List.app init [lastf])).
Proof.
  intros Hinit Hlast Hne.
  set (joined := Join (List.app init [lastf]) ",").
  unfold mage.getTypeFields.
  rewrite (append_cons_assoc complexType opening).
  assert (Hinner : sliceStr ((complexType ++ String opening "") ++ joined ++ String closing "")
                     (Z.of_nat (String.length complexType) + 1)
                     (Z.of_nat (String.length
                                  ((complexType ++ String opening "")
                                   ++ joined ++ String closing "")) - 1)
                   = Return joined).
  { replace (Z.of_nat (String.length complexType) + 1)%Z
      with (Z.of_nat (String.length (complexType ++ String opening "")))
      by (rewrite length_append; simpl; lia).
    replace (Z.of_nat (String.length ((complexType ++ String opening "")
                                      ++ joined ++ String closing "")) - 1)%Z
      with (Z.of_nat (String.length (complexType ++ String opening "")
                      + String.length joined))
      by (rewrite !length_append; simpl; lia).
    apply sliceStr_middle. }
  rewrite Hinner. simpl bind.
  destruct (getTypeFields_range_join joined init lastf "" None Hinit Hlast eq_refl)
    as (acc & Hrun & Hel).
  simpl in Hrun. fold joined in Hrun. rewrite Hrun. simpl bind.
  assert (Hsplit : joined = Join (List.app init [EmptyString]) "," ++ lastf ++ "").
  { unfold joined. rewrite append_nil_r.
    now rewrite <- (Join_snoc_append init "" lastf ","). }
  assert (Hrest : sliceStr joined
                    (Z.of_nat (String.length joined - String.length lastf))
                    (Z.of_nat (String.length joined))
                  = Return lastf).
  { replace (Z.of_nat (String.length joined - String.length lastf))
      with (Z.of_nat (String.length (Join (List.app init [EmptyString]) ",")))
      by (rewrite Hsplit, !length_append; simpl; lia).
    replace (Z.of_nat (String.length joined))
      with (Z.of_nat (String.length (Join (List.app init [EmptyString]) ",")
                      + String.length lastf))
      by (rewrite Hsplit, !length_append; simpl; lia).
    rewrite Hsplit. apply sliceStr_middle. }
  rewrite Hrest. simpl bind.
  replace (Z.of_nat (String.length lastf) >? 0)%Z with true.
  - unfold Slice.append. rewrite Hel. simpl. now destruct acc.
  - symmetry. apply Z.gtb_lt. destruct lastf; [congruence | simpl; lia].
Qed.

(** Splitting undoes joining: for fields that have no comma outside
    brackets and whose brackets match, the last one not empty,
    [getTypeFields] of their comma-separated join, preceded by the type
    name and any byte and followed by any byte, returns the fields. *)
Theorem getTypeFields_of_join (complexType : string) (opening closing : ascii)
    (init : list string) (lastf : string) :
  Forall (fun f => noTopComma 0 f = true /\ depthAfter 0 f = 0%Z) init ->
  noTopComma 0 lastf = true ->
  lastf <> "" ->
  mage.getTypeFields complexType
    (complexType
     ++ String opening (Join (List.app init [lastf]) "," ++ String closing ""))
  = Return (Some (List.app init [lastf])).
Proof.
  exact (getTypeFields_joined complexType opening closing init lastf).
Qed.

Lemma getTypeFields_short (complexType colType : string) :
  (String.length colType < String.length complexType + 2)%nat ->
  mage.getTypeFields complexType colType = Panic.
Proof.
  intros Hlt. unfold mage.getTypeFields, sliceStr.
  replace (Z.of_nat (String.length complexType) + 1
           <=? Z.of_nat (String.length colType) - 1)%Z with false by lia.
  rewrite andb_false_r. reflexivity.
Qed.

Lemma getTypeFields_cases (complexType colType : string) :
  mage.getTypeFields complexType colType = Panic
  \/ exists subFields,
       mage.getTypeFields complexType colType = Return subFields
       /\ Forall (fun p => (String.length p < String.length colType)%nat)
                 (Slice.elems subFields).
Proof.
  destruct (Nat.lt_ge_cases (String.length colType) (String.length complexType + 2))
    as [Hlt | Hge].
  - left. now apply getTypeFields_short.
  - right. destruct (getTypeFields_spec complexType colType Hge)
      as (sub & Hrun & _ & Hall).
    exists sub. split; [exact Hrun |].
    rewrite length_substring_exact in Hall by lia.
    eapply Forall_impl; [| exact Hall]. simpl. intros p Hp. lia.
Qed.

(** ** Pretty printing *)

Lemma prettyPrintType_unfold fuel logType colName colType indent :
  mage.prettyPrintType (S fuel) logType colName colType indent
  = mage.prettyPrintType_range (mage.prettyPrintType fuel) logType colName colType
      indent ["array"; "struct"; "map"].
Proof. reflexivity. Qed.

(** An array type with one element type prints as the element type in
    square brackets. *)
Theorem prettyPrintType_array (fuel : nat) (logType colName inner indent : string) :
  noTopComma 0 inner = true ->
  inner <> "" ->
  mage.prettyPrintType (S fuel) logType colName ("array<" ++ inner ++ ">") indent
  = (pretty <- mage.prettyPrintType fuel logType colName inner indent ;;
     Return ("[" ++ pretty ++ "]")).
Proof.
  intros Hno Hne. rewrite prettyPrintType_unfold.
  set (colType := "array<" ++ inner ++ ">").
  assert (Hfields : mage.getTypeFields "array" colType = Return (Some [inner])).
  { exact (getTypeFields_joined "array" "<" ">" [] inner (Forall_nil _) Hno Hne). }
  assert (Hprefix : HasPrefix colType "array" = true) by reflexivity.
  unfold mage.prettyPrintType_range. rewrite Hprefix.
  unfold mage.prettyPrintComplexType, mage.prettyPrintArrayType.
  change (String.eqb "array" "array") with true. cbv iota.
  rewrite Hfields. reflexivity.
Qed.

(** A map type prints its key type and its value type, one indent deeper,
    between braces. *)
Theorem prettyPrintType_map (fuel : nat) (logType colName keyType valType indent : string) :
  noTopComma 0 keyType = true ->
  depthAfter 0 keyType = 0%Z ->
  noTopComma 0 valType = true ->
  valType <> "" ->
  mage.prettyPrintType (S fuel) logType colName
    ("map<" ++ keyType ++ "," ++ valType ++ ">") indent
  = (key <- mage.prettyPrintType fuel logType colName keyType
              (indent ++ "&nbsp;&nbsp;") ;;
     val <- mage.prettyPrintType fuel logType colName valType
              (indent ++ "&nbsp;&nbsp;") ;;
     Return ("{<br>" ++ (indent ++ "&nbsp;&nbsp;") ++ key ++ ":" ++ val ++ "<br>}")).
Proof.
  intros Hk Hdepth Hv Hne. rewrite prettyPrintType_unfold.
  set (colType := "map<" ++ keyType ++ "," ++ valType ++ ">").
  assert (Hfields : mage.getTypeFields "map" colType
                    = Return (Some [keyType; valType])).
  { pose proof (getTypeFields_joined "map" "<" ">" [keyType] valType
                  (Forall_cons _ (conj Hk Hdepth) (Forall_nil _)) Hv Hne) as H.
    unfold Join in H. simpl in H. rewrite !append_assoc in H. exact H. }
  assert (Harray : HasPrefix colType "array" = false) by reflexivity.
  assert (Hstruct : HasPrefix colType "struct" = false) by reflexivity.
  assert (Hmap : HasPrefix colType "map" = true) by reflexivity.
  unfold mage.prettyPrintType_range. rewrite Harray, Hstruct, Hmap.
  unfold mage.prettyPrintComplexType, mage.prettyPrintMapType.
  change (String.eqb "map" "array") with false.
  change (String.eqb "map" "map") with true. cbv iota.
  rewrite Hfields. reflexivity.
Qed.

Lemma prefix_split (p s : string) :
  String.prefix p s = true -> exists r, s = p ++ r.
Proof.
  revert s. induction p as [|c p IH]; intros s H.
  - exists s. reflexivity.
  - destruct s as [|d s]; simpl in H; [discriminate |].
    destruct (ascii_dec c d) as [Heq | Hne]; [| discriminate]. subst d.
    destruct (IH s H) as [r Hr]. exists r. simpl. now rewrite <- Hr.
Qed.

(** A type whose name starts with "array", "struct" or "map" but is
    shorter than that name and two brackets makes [prettyPrintType] panic:
    so do "map", "array" or "struct" alone, and any primitive type so
    named, such as "maps". *)
Theorem prettyPrintType_short_complex_name (fuel : nat)
    (logType colName colType indent complexType : string) :
  In complexType ["array"; "struct"; "map"] ->
  HasPrefix colType complexType = true ->
  (String.length colType < String.length complexType + 2)%nat ->
  mage.prettyPrintType (S fuel) logType colName colType indent = Panic.
Proof.
  intros Hin Hprefix Hshort. rewrite prettyPrintType_unfold.
  pose proof (getTypeFields_short complexType colType Hshort) as Hpanic.
  destruct (prefix_split complexType colType Hprefix) as [r Hr].
  unfold mage.prettyPrintType_range, mage.prettyPrintComplexType,
    mage.prettyPrintArrayType, mage.prettyPrintStructType, mage.prettyPrintMapType.
  simpl in Hin.
  destruct Hin as [Hct | [Hct | [Hct | []]]]; subst complexType.
  - rewrite Hprefix. change (String.eqb "array" "array") with true. cbv iota.
    now rewrite Hpanic.
  - assert (Harray : HasPrefix colType "array" = false) by (now rewrite Hr).
    rewrite Harray, Hprefix.
    change (String.eqb "struct" "array") with false.
    change (String.eqb "struct" "map") with false.
    change (String.eqb "struct" "struct") with true. cbv iota.
    now rewrite Hpanic.
  - assert (Harray : HasPrefix colType "array" = false) by (now rewrite Hr).
    assert (Hstruct : HasPrefix colType "struct" = false) by (now rewrite Hr).
    rewrite Harray, Hstruct, Hprefix.
    change (String.eqb "map" "array") with false.
    change (String.eqb "map" "map") with true. cbv iota.
    now rewrite Hpanic.
Qed.

Lemma substring_beyond (n m : nat) (s : string) :
  (String.length s <= n)%nat -> substring n m s = "".
Proof.
  revert n m. induction s as [|c s IH]; intros [|n] [|m] H; simpl in *;
    try reflexivity; try lia; apply IH; lia.
Qed.

(** A found index lies inside the string. *)
Lemma Index_bound (s substr : string) :
  substr <> "" -> Index s substr <> (-1)%Z ->
  (0 <= Index s substr < Z.of_nat (String.length s))%Z.
Proof.
  intros Hne Hfound. unfold Index in *.
  destruct (String.index 0 substr s) as [m|] eqn:Hm; [| congruence].
  split; [lia |].
  destruct (Nat.lt_ge_cases m (String.length s)) as [Hlt | Hge]; [lia | exfalso].
  apply index_correct1 in Hm. rewrite substring_beyond in Hm by exact Hge.
  now subst substr.
Qed.

Lemma sliceStr_length (s : string) (lo hi : Z) (t : string) :
  sliceStr s lo hi = Return t -> (String.length t <= String.length s)%nat.
Proof.
  unfold sliceStr. destruct (_ && _)%bool; [| discriminate].
  intros H. injection H as H. subst t. apply length_substring.
Qed.

Lemma sliceStr_fuel (s : string) (lo hi : Z) : sliceStr s lo hi <> OutOfFuel.
Proof.
  unfold sliceStr. destruct (_ && _)%bool; discriminate.
Qed.

Section Termination.

Variable rec : string -> string -> string -> string -> exec string.
Variable n : nat.
Hypothesis rec_returns :
  forall logType colName colType indent,
    (String.length colType < n)%nat ->
    rec logType colName colType indent <> OutOfFuel.

Lemma array_returns logType colName colType indent :
  (String.length colType <= n)%nat ->
  mage.prettyPrintArrayType rec logType colName colType indent <> OutOfFuel.
Proof using rec_returns.
  intros Hlen. unfold mage.prettyPrintArrayType.
  destruct (getTypeFields_cases "array" colType) as [Hp | (sub & Hrun & Hall)];
    [rewrite Hp; discriminate |].
  rewrite Hrun. simpl bind.
  destruct (negb (Slice.len sub =? 1)%Z); [discriminate |].
  destruct (Slice.elems sub) as [|f0 l]; [discriminate |]. simpl.
  inversion Hall as [|? ? Hf0 _]; subst.
  pose proof (rec_returns logType colName f0 indent ltac:(lia)) as Hrec.
  destruct (rec logType colName f0 indent); simpl; congruence.
Qed.

Lemma map_returns logType colName colType indent :
  (String.length colType <= n)%nat ->
  mage.prettyPrintMapType rec logType colName colType indent <> OutOfFuel.
Proof using rec_returns.
  intros Hlen. unfold mage.prettyPrintMapType.
  destruct (getTypeFields_cases "map" colType) as [Hp | (sub & Hrun & Hall)];
    [rewrite Hp; discriminate |].
  rewrite Hrun. simpl bind.
  destruct (negb (Slice.len sub =? 2)%Z); [discriminate |].
  destruct (Slice.elems sub) as [|k [|v l]]; try discriminate. simpl.
  inversion Hall as [|? ? Hk Hrest]; subst.
  inversion Hrest as [|? ? Hv _]; subst.
  pose proof (rec_returns logType colName k (indent ++ mage.prettyPrintIndent)
                ltac:(lia)) as Hreck.
  pose proof (rec_returns logType colName v (indent ++ mage.prettyPrintIndent)
                ltac:(lia)) as Hrecv.
  destruct (rec logType colName k _); simpl; try congruence.
  destruct (rec logType colName v _); simpl; congruence.
Qed.

Lemma struct_range_returns logType colName indent :
  forall fields fieldTypes,
    Forall (fun p => (String.length p <= n)%nat) fields ->
    mage.prettyPrintStructType_range rec logType colName indent fields fieldTypes
    <> OutOfFuel.
Proof using rec_returns.
  induction fields as [|f rest IH]; intros fieldTypes Hall; [discriminate |].
  inversion Hall as [|? ? Hf Hrest]; subst. simpl.
  destruct (Index f ":" =? -1)%Z eqn:Hidx; [discriminate |].
  destruct (sliceStr f 0 (Index f ":")) as [name | |] eqn:Hname; simpl;
    try discriminate.
  2: { exfalso. exact (sliceStr_fuel _ _ _ Hname). }
  destruct (sliceStr f (Index f ":" + 1) (Z.of_nat (String.length f)))
    as [t | |] eqn:Ht; simpl; try discriminate.
  2: { exfalso. exact (sliceStr_fuel _ _ _ Ht). }
  assert (Hshort : (String.length t < n)%nat).
  { unfold sliceStr in Ht. destruct (_ && _)%bool eqn:Hc; [| discriminate].
    injection Ht as Ht. subst t.
    apply andb_prop in Hc. destruct Hc as [Hc _]. apply andb_prop in Hc.
    destruct Hc as [Hlo _]. apply Z.leb_le in Hlo.
    assert (Hidx' : Index f ":" <> (-1)%Z) by (apply Z.eqb_neq; exact Hidx).
    pose proof (Index_bound f ":" ltac:(discriminate) Hidx') as Hbound.
    rewrite length_substring_exact by lia. lia. }
  pose proof (rec_returns logType colName t indent Hshort) as Hrec.
  destruct (rec logType colName t indent); simpl; try congruence.
  apply IH. exact Hrest.
Qed.

Lemma struct_returns logType colName colType indent :
  (String.length colType <= n)%nat ->
  mage.prettyPrintStructType rec logType colName colType indent <> OutOfFuel.
Proof using rec_returns.
  intros Hlen. unfold mage.prettyPrintStructType.
  destruct (getTypeFields_cases "struct" colType) as [Hp | (sub & Hrun & Hall)];
    [rewrite Hp; discriminate |].
  rewrite Hrun. simpl bind.
  destruct (Slice.len sub =? 0)%Z; [discriminate |].
  assert (Hrange := struct_range_returns logType colName
                      (indent ++ mage.prettyPrintIndent) (Slice.elems sub) []).
  assert (Hshort : Forall (fun p => (String.length p <= n)%nat) (Slice.elems sub)).
  { eapply Forall_impl; [| exact Hall]. simpl. intros p Hp. lia. }
  specialize (Hrange Hshort).
  destruct (mage.prettyPrintStructType_range rec logType colName _ (Slice.elems sub) []);
    simpl; try discriminate.
  congruence.
Qed.

Lemma range_returns logType colName colType indent complexTypes :
  (String.length colType <= n)%nat ->
  mage.prettyPrintType_range rec logType colName colType indent complexTypes
  <> OutOfFuel.
Proof using rec_returns.
  intros Hlen. induction complexTypes as [|ct rest IH]; simpl; [discriminate |].
  destruct (HasPrefix colType ct); [| exact IH].
  unfold mage.prettyPrintComplexType.
  destruct (String.eqb ct "array"); [now apply array_returns |].
  destruct (String.eqb ct "map"); [now apply map_returns |].
  destruct (String.eqb ct "struct"); [now apply struct_returns | discriminate].
Qed.

End Termination.

(** [prettyPrintType] terminates: it nests no deeper than the type text is
    long, so with more fuel than the text has bytes the model returns a
    string or panics, and never runs out of fuel. *)
Theorem prettyPrintType_terminates (fuel : nat)
    (logType colName colType indent : string) :
  (String.length colType < fuel)%nat ->
  mage.prettyPrintType fuel logType colName colType indent <> OutOfFuel.
Proof.
  revert logType colName colType indent.
  induction fuel as [|fuel IH]; intros logType colName colType indent Hlen; [lia |].
  rewrite prettyPrintType_unfold.
  apply (range_returns (mage.prettyPrintType fuel) fuel IH). lia.
Qed.

End GlueTypes.

(** * Documentation generator: supported logs *)

Lemma mapGet_mapSet_same (V : Type) (m : list (string * V)) (k : string) (v : V) :
  mapGet (mapSet m k v) k = Some v.
Proof.
  induction m as [|[k' v'] m IH]; simpl.
  - now rewrite String.eqb_refl.
  - destruct (String.eqb k' k) eqn:E; simpl.
    + now rewrite String.eqb_refl.
    + now rewrite E.
Qed.

Lemma mapGet_mapSet_other (V : Type) (m : list (string * V)) (k k' : string) (v : V) :
  k' <> k -> mapGet (mapSet m k v) k' = mapGet m k'.
Proof.
  intros Hne. induction m as [|[k0 v0] m IH]; simpl.
  - destruct (String.eqb k k') eqn:E; [| reflexivity].
    apply String.eqb_eq in E. congruence.
  - destruct (String.eqb k0 k) eqn:E; simpl.
    + apply String.eqb_eq in E. subst k0.
      destruct (String.eqb k k') eqn:E'; [| reflexivity].
      apply String.eqb_eq in E'. congruence.
    + destruct (String.eqb k0 k'); [reflexivity | exact IH].
Qed.

Section SupportedLogsProperties.

Variable Table : Type.
Variable LogType : Table -> string.

Notation "'twoParts'" :=
  (fun table => List.length (Split (LogType table) "."%char) = 2%nat).

(** The loop on tables whose log types all have two parts: it counts them
    and appends each to its category. *)
Lemma findSupportedLogs_range_ok :
  forall tables result,
    Forall twoParts tables ->
    (forall name category,
        mapGet (mage.Categories result) name = Some category ->
        mage.Name category = name /\ Slice.elems (mage.LogTypes category) <> []) ->
    exists final,
      mage.findSupportedLogs_range LogType tables result = Return (Some final, None)
      /\ mage.TotalTypes final
         = (mage.TotalTypes result + Z.of_nat (List.length tables))%Z
      /\ (forall name,
             categoryLogTypes (mage.Categories final) name
             = categoryLogTypes (mage.Categories result) name
               ++ logTypesOf name (map LogType tables))
      /\ (forall name category,
             mapGet (mage.Categories final) name = Some category ->
             mage.Name category = name /\ Slice.elems (mage.LogTypes category) <> []).
Proof.
  induction tables as [|table rest IH]; intros result Hall Hinv.
  - exists result. simpl. split; [reflexivity |]. split; [lia |].
    split; [| exact Hinv]. intros name. now rewrite app_nil_r.
  - inversion Hall as [|? ? Htwo Hrest]; subst. simpl.
    rewrite Htwo. simpl.
    destruct (Split (LogType table) "."%char) as [|name0 parts] eqn:Hsplit;
      [discriminate |].
    simpl.
    set (category0 := match mapGet (mage.Categories result) name0 with
                      | Some category => category
                      | None => {| mage.Name := name0; mage.LogTypes := None |}
                      end).
    set (category1 := {| mage.Name := mage.Name category0;
                         mage.LogTypes := Slice.append (mage.LogTypes category0)
                                            [LogType table] |}).
    assert (Hname0 : mage.Name category0 = name0).
    { unfold category0. destruct (mapGet (mage.Categories result) name0) eqn:Hget;
        [apply (Hinv name0 l Hget) | reflexivity]. }
    destruct (IH {| mage.Categories := mapSet (mage.Categories result) name0 category1;
                    mage.TotalTypes := (mage.TotalTypes result + 1)%Z |} Hrest)
      as (final & Hrun & Htotal & Htypes & Hfinal).
    { simpl. intros name category Hget.
      destruct (String.eqb name name0) eqn:E.
      - apply String.eqb_eq in E. subst name.
        rewrite mapGet_mapSet_same in Hget. injection Hget as Hget. subst category.
        simpl. split; [exact Hname0 |]. rewrite elems_append.
        now destruct (Slice.elems (mage.LogTypes category0)).
      - apply String.eqb_neq in E. rewrite mapGet_mapSet_other in Hget by exact E.
        exact (Hinv name category Hget). }
    exists final. split; [exact Hrun |]. split; [simpl in Htotal; lia |].
    split; [| exact Hfinal].
    intros name. rewrite Htypes. simpl. unfold logTypesOf at 2. simpl.
    unfold mage.categoryOf at 1. rewrite Hsplit. simpl.
    unfold categoryLogTypes at 1 2.
    destruct (String.eqb name0 name) eqn:E.
    + apply String.eqb_eq in E. subst name.
      rewrite mapGet_mapSet_same. simpl. rewrite elems_append, <- app_assoc.
      simpl. f_equal.
      * unfold category0. now destruct (mapGet (mage.Categories result) name0).
    + assert (Hne : name <> name0).
      { intros Heq. subst name. now rewrite String.eqb_refl in E. }
      rewrite mapGet_mapSet_other by exact Hne. reflexivity.
Qed.

(** When every log type of the registry has the form category, dot, name,
    [findSupportedLogs] counts the tables and records, under each category
    that occurs, the category's name and its log types in registry order;
    a category that does not occur is not recorded. *)
Theorem findSupportedLogs_groups_by_category (tables : list Table) :
  Forall twoParts tables ->
  exists logs,
    mage.findSupportedLogs LogType tables = Return (Some logs, None)
    /\ mage.TotalTypes logs = Z.of_nat (List.length tables)
    /\ forall name,
         match mapGet (mage.Categories logs) name with
         | Some category =>
             mage.Name category = name
             /\ Slice.elems (mage.LogTypes category)
                = logTypesOf name (map LogType tables)
             /\ logTypesOf name (map LogType tables) <> []
         | None => logTypesOf name (map LogType tables) = []
         end.
Proof.
  intros Hall.
  destruct (findSupportedLogs_range_ok tables
              {| mage.Categories := []; mage.TotalTypes := 0 |} Hall)
    as (logs & Hrun & Htotal & Htypes & Hinv).
  { simpl. discriminate. }
  exists logs. split; [exact Hrun |]. split; [simpl in Htotal; lia |].
  intros name. specialize (Htypes name). unfold categoryLogTypes in Htypes.
  simpl in Htypes.
  destruct (mapGet (mage.Categories logs) name) as [category|] eqn:Hget.
  - destruct (Hinv name category Hget) as [Hname Hne].
    split; [exact Hname |]. split; [exact Htypes |]. now rewrite <- Htypes.
  - now rewrite <- Htypes.
Qed.

Lemma findSupportedLogs_range_error :
  forall pre result table post,
    Forall twoParts pre ->
    List.length (Split (LogType table) "."%char) <> 2%nat ->
    mage.findSupportedLogs_range LogType (pre ++ table :: post) result
    = Return (None,
              Some (mage.Errorf (String.append "unexpected logType format: "
                                               (LogType table)))).
Proof.
  induction pre as [|t pre IH]; intros result table post Hpre Hbad; simpl.
  - apply Nat.eqb_neq in Hbad. rewrite Hbad. reflexivity.
  - inversion Hpre as [|? ? Htwo Hrest]; subst.
    rewrite Htwo. simpl.
    destruct (Split (LogType t) "."%char) as [|name0 parts]; [discriminate |].
    simpl. apply IH; assumption.
Qed.

(** The first log type, in registry order, that does not consist of exactly
    two parts separated by a dot makes [findSupportedLogs] fail with an
    error naming it; no grouping is returned, whatever was grouped before. *)
Theorem findSupportedLogs_rejects_malformed (pre post : list Table) (table : Table) :
  Forall twoParts pre ->
  List.length (Split (LogType table) "."%char) <> 2%nat ->
  mage.findSupportedLogs LogType (pre ++ table :: post)
  = Return (None,
            Some (mage.Errorf (String.append "unexpected logType format: "
                                             (LogType table)))).
Proof.
  intros Hpre Hbad. apply findSupportedLogs_range_error; assumption.
Qed.

End SupportedLogsProperties.

(** * Documentation generator: struct fields *)

Section GlueStruct.

Local Open Scope string_scope.

Lemma prefix_empty (s : string) : String.prefix "" s = true.
Proof. now destruct s. Qed.

Lemma Index_first_colon (name ty : string) :
  hasByte ":"%char name = false ->
  Index (name ++ String ":"%char ty) ":" = Z.of_nat (String.length name).
Proof.
  intros Hname. unfold Index.
  assert (Hidx : String.index 0 ":" (name ++ String ":"%char ty)
                 = Some (String.length name)).
  { induction name as [|c name IH].
    - cbn -[ascii_dec].
      destruct (ascii_dec ":"%char ":"%char) as [_ | Hne]; [| congruence].
      now rewrite prefix_empty.
    - simpl in Hname. apply orb_false_iff in Hname. destruct Hname as [Hc Hrest].
      apply Ascii.eqb_neq in Hc. cbn -[ascii_dec].
      destruct (ascii_dec ":"%char c) as [Heq | _]; [congruence |].
      now rewrite (IH Hrest). }
  now rewrite Hidx.
Qed.

(** One field of a struct type is split at its first colon: the text before
    it is the name, printed between double quotes, and everything after
    it, further colons included, is the field's type. *)
Theorem struct_field_splits_at_first_colon
    (rec : string -> string -> string -> string -> exec string)
    (logType colName indent name ty : string) (rest fieldTypes : list string) :
  hasByte ":"%char name = false ->
  mage.prettyPrintStructType_range rec logType colName indent
    ((name ++ String ":"%char ty) :: rest) fieldTypes
  = (pretty <- rec logType colName ty indent ;;
     mage.prettyPrintStructType_range rec logType colName indent rest
       (List.app fieldTypes
          ["<br>" ++ indent ++ mage.quote ++ name ++ mage.quote ++ ":" ++ pretty])).
Proof.
  intros Hname. simpl. rewrite (Index_first_colon name ty Hname).
  replace (Z.of_nat (String.length name) =? -1)%Z with false
    by (symmetry; apply Z.eqb_neq; lia).
  assert (Hn : sliceStr (name ++ String ":"%char ty) 0 (Z.of_nat (String.length name))
               = Return name).
  { exact (sliceStr_middle "" name (String ":"%char ty)). }
  assert (Ht : sliceStr (name ++ String ":"%char ty)
                 (Z.of_nat (String.length name) + 1)
                 (Z.of_nat (String.length (name ++ String ":"%char ty)))
               = Return ty).
  { rewrite (append_cons_assoc name ":"%char ty).
    replace (Z.of_nat (String.length name) + 1)%Z
      with (Z.of_nat (String.length (name ++ String ":"%char "")))
      by (rewrite length_append; simpl; lia).
    replace (Z.of_nat (String.length ((name ++ String ":"%char "") ++ ty)))
      with (Z.of_nat (String.length (name ++ String ":"%char "") + String.length ty))
      by (rewrite !length_append; simpl; lia).
    rewrite <- (append_nil_r ty) at 1. apply sliceStr_middle. }
  rewrite Hn, Ht. simpl. unfold mage.prettyPrintPrefix.
  destruct (rec logType colName ty indent); simpl; try reflexivity.
  now rewrite !append_assoc.
Qed.

End GlueStruct.

(** * The properties of alert delivery and of the documentation generator
      at concrete inputs *)

Local Open Scope string_scope.

Lemma sampleOutputs_have_ids :
  Forall (fun item => sampleOutputID item <> None) sampleOutputs.
Proof.
  repeat constructor; discriminate.
Qed.

Lemma contains_decides_membership_witness :
  exists b,
    api.contains sampleOutputID sampleOutputs "out-email" = Return b
    /\ (b = true
        <-> exists item, In item sampleOutputs /\ sampleOutputID item = Some "out-email").
Proof.
  apply (contains_decides_membership _ sampleOutputID sampleOutputs "out-email").
  exact sampleOutputs_have_ids.
Defined.

Lemma validateInputs_partition_witness :
  exists invalid valid,
    api.validateInputs sampleOutputID ["out-pager"; "nope"; "out-email"; "x"]
      sampleOutputs
    = Return (invalid, valid)
    /\ Slice.elems invalid
       = filter (fun id => negb (api.knownID sampleOutputID sampleOutputs id))
                ["out-pager"; "nope"; "out-email"; "x"]
    /\ Slice.elems valid
       = map snd (filter (fun p => api.knownID sampleOutputID sampleOutputs (fst p))
                         (combine ["out-pager"; "nope"; "out-email"; "x"] sampleOutputs))
    /\ (List.length (Slice.elems invalid) + List.length (Slice.elems valid)
        = List.length ["out-pager"; "nope"; "out-email"; "x"])%nat.
Proof.
  apply (validateInputs_partition _ sampleOutputID
           ["out-pager"; "nope"; "out-email"; "x"] sampleOutputs).
  - exact sampleOutputs_have_ids.
  - intros [|[|[|[|i]]]] id Hi Hknown; simpl in *; try lia;
      try (injection Hi as Hi; subst id; discriminate).
    now destruct i.
Defined.

Lemma validateInputs_leading_outputs_witness :
  exists invalid valid,
    api.validateInputs sampleOutputID ["out-pager"; "out-email"] sampleOutputs
    = Return (invalid, valid)
    /\ Slice.elems invalid = []
    /\ Slice.elems valid = firstn (List.length ["out-pager"; "out-email"]) sampleOutputs.
Proof.
  apply (validateInputs_leading_outputs _ sampleOutputID
           ["out-pager"; "out-email"] sampleOutputs).
  - exact sampleOutputs_have_ids.
  - repeat constructor.
  - simpl. lia.
Defined.

Lemma validateInputs_index_panic_witness :
  api.validateInputs sampleOutputID ["out-pager"; "nope"; "out-email"; "out-email"]
    sampleOutputs
  = Panic.
Proof.
  apply (validateInputs_index_panic _ sampleOutputID
           ["out-pager"; "nope"; "out-email"; "out-email"] sampleOutputs
           3 "out-email").
  - exact sampleOutputs_have_ids.
  - reflexivity.
  - reflexivity.
  - simpl. lia.
Defined.



(** The request names the pager output; the alert goes to the first
    output of the list. *)
Example deliver_alert_pager_request :
  api.DeliverAlert sampleOutputID sampleGetAlert (Ok sampleOutputs) sampleDeliverAlerts
    sampleSummary keepSummary pagerRequest
  = Return (Some {| api.Summary := "alert-1";
                    api.DeliverySuccess := true;
                    api.DeliveryResponses :=
                      Some [{| api.ResponseOutputID := "Slack";
                               api.Response := "sent";
                               api.ResponseSuccess := true |}] |},
            None).
Proof. reflexivity. Qed.

Lemma getTypeFields_join_witness :
  exists subFields,
    mage.getTypeFields "struct" "struct<a:int,b:map<string,int>,>" = Return subFields
    /\ let inner := substring (String.length "struct" + 1)
                      (String.length "struct<a:int,b:map<string,int>,>"
                       - String.length "struct" - 2)
                      "struct<a:int,b:map<string,int>,>" in
       Join (Slice.elems subFields) "," = inner
       \/ Join (Slice.elems subFields) "," ++ "," = inner.
Proof.
  apply (getTypeFields_join "struct" "struct<a:int,b:map<string,int>,>").
  simpl. lia.
Defined.

Lemma getTypeFields_of_join_witness :
  mage.getTypeFields "map" "map<string,array<struct<a:int,b:map<string,int>>>>"
  = Return (Some ["string"; "array<struct<a:int,b:map<string,int>>>"]).
Proof.
  apply (getTypeFields_of_join "map" "<"%char ">"%char ["string"]
           "array<struct<a:int,b:map<string,int>>>").
  - repeat constructor.
  - reflexivity.
  - discriminate.
Defined.

Lemma prettyPrintType_array_witness :
  mage.prettyPrintType 3 "AWS.CloudTrail" "resources" "array<array<string>>" ""
  = Return "[[string]]".
Proof.
  refine (eq_trans
            (prettyPrintType_array 2 "AWS.CloudTrail" "resources" "array<string>" ""
               _ _) _);
    [reflexivity | discriminate | reflexivity].
Defined.

Lemma prettyPrintType_map_witness :
  mage.prettyPrintType 3 "AWS.CloudTrail" "tags" "map<string,array<string>>" ""
  = Return "{<br>&nbsp;&nbsp;string:[string]<br>}".
Proof.
  refine (eq_trans
            (prettyPrintType_map 2 "AWS.CloudTrail" "tags" "string" "array<string>" ""
               _ _ _ _) _);
    [reflexivity | reflexivity | reflexivity | discriminate | reflexivity].
Defined.

Lemma prettyPrintType_short_complex_name_witness :
  mage.prettyPrintType 1 "Osquery.Differential" "columns" "maps" "" = Panic.
Proof.
  apply (prettyPrintType_short_complex_name 0 "Osquery.Differential" "columns"
           "maps" "" "map").
  - simpl. tauto.
  - reflexivity.
  - simpl. lia.
Defined.

Lemma prettyPrintType_terminates_witness :
  mage.prettyPrintType 40 "AWS.VPCFlow" "c" "array<map<string,struct<a:int>>>" ""
  <> OutOfFuel.
Proof.
  apply (prettyPrintType_terminates 40 "AWS.VPCFlow" "c"
           "array<map<string,struct<a:int>>>" "").
  simpl. lia.
Defined.

Lemma struct_field_splits_at_first_colon_witness :
  mage.prettyPrintStructType_range (mage.prettyPrintType 5) "AWS.S3" "c" "&nbsp;&nbsp;"
    ["owner:struct<id:string>"] []
  = Return ["<br>&nbsp;&nbsp;" ++ mage.quote ++ "owner" ++ mage.quote ++ ":"
            ++ "{<br>&nbsp;&nbsp;&nbsp;&nbsp;" ++ mage.quote ++ "id" ++ mage.quote
            ++ ":string<br>}"].
Proof.
  refine (eq_trans
            (struct_field_splits_at_first_colon (mage.prettyPrintType 5) "AWS.S3" "c"
               "&nbsp;&nbsp;" "owner" "struct<id:string>" [] [] _) _);
    reflexivity.
Defined.

Lemma findSupportedLogs_groups_by_category_witness :
  exists logs,
    mage.findSupportedLogs (fun logType : string => logType)
      ["AWS.CloudTrail"; "Osquery.Batch"; "AWS.S3ServerAccess"]
    = Return (Some logs, None)
    /\ mage.TotalTypes logs
       = Z.of_nat (List.length ["AWS.CloudTrail"; "Osquery.Batch"; "AWS.S3ServerAccess"])
    /\ forall name,
         match mapGet (mage.Categories logs) name with
         | Some category =>
             mage.Name category = name
             /\ Slice.elems (mage.LogTypes category)
                = logTypesOf name
                    (map (fun logType : string => logType)
                         ["AWS.CloudTrail"; "Osquery.Batch"; "AWS.S3ServerAccess"])
             /\ logTypesOf name
                  (map (fun logType : string => logType)
                       ["AWS.CloudTrail"; "Osquery.Batch"; "AWS.S3ServerAccess"])
                <> []
         | None =>
             logTypesOf name
               (map (fun logType : string => logType)
                    ["AWS.CloudTrail"; "Osquery.Batch"; "AWS.S3ServerAccess"])
             = []
         end.
Proof.
  apply (findSupportedLogs_groups_by_category string (fun logType => logType)
           ["AWS.CloudTrail"; "Osquery.Batch"; "AWS.S3ServerAccess"]).
  repeat constructor.
Defined.

Lemma findSupportedLogs_rejects_malformed_witness :
  mage.findSupportedLogs (fun logType : string => logType)
    ["AWS.CloudTrail"; "AWS.S3.ServerAccess"; "Osquery"]
  = Return (None, Some (mage.Errorf "unexpected logType format: AWS.S3.ServerAccess")).
Proof.
  apply (findSupportedLogs_rejects_malformed string (fun logType => logType)
           ["AWS.CloudTrail"] ["Osquery"] "AWS.S3.ServerAccess").
  - repeat constructor.
  - simpl. lia.
Defined.
